(** * Earthquake Visualizer: the data pipeline of
      [earthquake_visualizer_react_single_file.jsx]

    The component fetches the USGS feed, normalizes the features, filters them
    by a minimum magnitude, encodes magnitude as radius and colour, sorts the
    list view and frames the map.  This development embeds that pipeline:

    - JavaScript numbers are IEEE-754 binary64 values, taken here as Rocq's
      primitive [float] (same format, same round-to-nearest-even arithmetic,
      one NaN); [>=], [<], [-] and [/] are the primitive operations;
    - [null] and [undefined] are kept apart from numbers ([optnum]);
    - arrays are lists; [filter], [map], [slice] and [sort] are written out;
    - React state is a record, the promise chain of the effect a function on
      that record, the [mounted] flag an explicit field of the session. *)

From Stdlib Require Import ZArith Floats Lia List Bool String.
From Stdlib Require Import Sorting.Sorted Sorting.Permutation.
Import ListNotations.

Set Warnings "-inexact-float".

(** ** JavaScript values used by the component *)

(** A value that is a number, [null] or [undefined] ([properties.mag],
    [coordinates[2]]). *)
Inductive optnum : Type :=
| Undefined
| Null
| Num (x : float).

(** [v ?? d]: the right operand only when the left one is nullish. *)
Definition coalesce (v : optnum) (d : float) : float :=
  match v with
  | Num x => x
  | Null | Undefined => d
  end.

(** [v == null]: loose equality holds for [null] and [undefined] alone. *)
Definition loosely_null (v : optnum) : bool :=
  match v with
  | Num _ => false
  | Null | Undefined => true
  end.

(** [a >= b] on numbers: false as soon as one side is NaN. *)
Definition ge (a b : float) : bool := (b <=? a)%float.

(** [typeof v === "number"]. *)
Definition is_number (v : optnum) : bool :=
  match v with
  | Num _ => true
  | Null | Undefined => false
  end.

(** ** Array built-ins *)

Module Array.

(** [arr[i]] on an array of numbers: [undefined] past the end. *)
Definition get (arr : list float) (i : nat) : optnum :=
  match nth_error arr i with
  | Some x => Num x
  | None => Undefined
  end.

(** [Array.prototype.map]. *)
Definition map {A B : Type} (callback : A -> B) (O : list A) : list B :=
  List.map callback O.

(** [Array.prototype.filter]: the elements are visited by increasing index
    and each selected one is appended to the result array. *)
Definition filter {A : Type} (callback : A -> bool) (O : list A) : list A :=
  fold_left (fun acc kValue => if callback kValue then acc ++ [kValue] else acc)
            O [].

(** [Array.prototype.slice()] without arguments: a copy. *)
Definition slice {A : Type} (O : list A) : list A := O.

(** [SortCompare] for two defined elements: the comparator's result, with
    NaN read as [+0]. *)
Definition SortCompare {A : Type} (comparefn : A -> A -> float) (x y : A) : float :=
  let v := comparefn x y in
  if is_nan v then 0%float else v.

(** Insertion of [x] in front of the first element it does not have to
    follow. *)
Fixpoint insert {A : Type} (comparefn : A -> A -> float) (x : A) (sorted : list A)
  : list A :=
  match sorted with
  | [] => [x]
  | y :: rest =>
      if (SortCompare comparefn x y <=? 0)%float
      then x :: y :: rest
      else y :: insert comparefn x rest
  end.

(** [Array.prototype.sort(comparefn)]: a stable sort.  For a consistent
    comparator the language fixes the result, which is the one of this stable
    insertion sort (an element stays in front of the later elements it
    compares equal to). *)
Definition sort {A : Type} (comparefn : A -> A -> float) (O : list A) : list A :=
  fold_right (insert comparefn) [] O.

End Array.

(** ** Math built-ins *)

(** [Math.max] of two numbers: NaN if one is NaN, [+0] above [-0]. *)
Definition Math_max (a b : float) : float :=
  if (is_nan a || is_nan b)%bool then nan
  else if (a <? b)%float then b
  else if (b <? a)%float then a
  else if get_sign a then b else a.

Section MathPow.

(** The result [Math.pow] gives where the language leaves it to the engine
    (an "implementation-approximated" value) or where it depends on a zero or
    infinite base: base first, exponent second. *)
Variable pow_approx : float -> float -> float.

(** [Math.pow(base, exponent)], with the cases the language fixes for a NaN,
    zero or infinite exponent written out. *)
Definition Math_pow (base exponent : float) : float :=
  if is_nan exponent then nan
  else if is_zero exponent then 1%float
  else if is_nan base then nan
  else if is_infinity exponent && is_finite base && negb (is_zero base) then
    if (1 <? abs base)%float then
      (if get_sign exponent then 0%float else infinity)
    else if (abs base =? 1)%float then nan
    else (if get_sign exponent then infinity else 0%float)
  else pow_approx base exponent.

(** [magToRadius]. *)
Definition magToRadius (m : optnum) : float :=
  match m with
  | Null | Undefined => 4%float
  | Num m => Math_max 4%float (Math_pow 2%float (m / 1.4)%float)
  end.

End MathPow.

(** [magToColor]. *)
Definition magToColor (m : optnum) : string :=
  match m with
  | Null | Undefined => "#999"
  | Num m =>
      if ge m 5 then "#800026"
      else if ge m 4 then "#BD0026"
      else if ge m 3 then "#E31A1C"
      else if ge m 2 then "#FC4E2A"
      else if ge m 1 then "#FD8D3C"
      else "#FED976"
  end%string.

(** ** The feed and the normalized records *)

Module Raw.

(** [feature.properties]. *)
Record Properties : Type := {
  mag : optnum;
  place : string;
  time : float;
  url : string;
}.

(** [feature.geometry]: [coordinates] is [[lon, lat]] or [[lon, lat, depth]]. *)
Record Geometry : Type := {
  coordinates : list float;
}.

Record Feature : Type := {
  id : string;
  properties : Properties;
  geometry : Geometry;
}.

(** The parsed feed: [features] may be absent. *)
Record FeatureCollection : Type := {
  features : option (list Feature);
}.

End Raw.

(** One element of the [data] state. *)
Record Quake : Type := {
  id : string;
  magnitude : optnum;
  place : string;
  time : float;
  url : string;
  coords : list float;
  depth : optnum;
}.

(** The callback of [(json.features || []).map(...)]. *)
Definition normalize_feature (f : Raw.Feature) : Quake := {|
  id := Raw.id f;
  magnitude := Raw.mag (Raw.properties f);
  place := Raw.place (Raw.properties f);
  time := Raw.time (Raw.properties f);
  url := Raw.url (Raw.properties f);
  coords := Raw.coordinates (Raw.geometry f);
  depth := Array.get (Raw.coordinates (Raw.geometry f)) 2;
|}.

(** [json.features || []]: an array is truthy, also when empty. *)
Definition features_or_empty (json : Raw.FeatureCollection) : list Raw.Feature :=
  match Raw.features json with
  | Some fs => fs
  | None => []
  end.

Definition normalize (json : Raw.FeatureCollection) : list Quake :=
  Array.map normalize_feature (features_or_empty json).

(** Longitude and latitude as the markers read them: [f.coords[0]] and
    [f.coords[1]]. *)
Definition longitude (q : Quake) : optnum := Array.get (coords q) 0.
Definition latitude (q : Quake) : optnum := Array.get (coords q) 1.

(** ** The filtered view *)

(** [const filtered = data.filter((d) => (d.magnitude ?? 0) >= minMag)]. *)
Definition passes (minMag : float) (d : Quake) : bool :=
  ge (coalesce (magnitude d) 0) minMag.

Definition filtered (data : list Quake) (minMag : float) : list Quake :=
  Array.filter (passes minMag) data.

(** ** The list view *)

(** The comparator [(a, b) => (b.magnitude ?? 0) - (a.magnitude ?? 0)]. *)
Definition by_magnitude_desc (a b : Quake) : float :=
  (coalesce (magnitude b) 0 - coalesce (magnitude a) 0)%float.

(** [filtered.slice().sort(...)]. *)
Definition list_order (shown : list Quake) : list Quake :=
  Array.sort by_magnitude_desc (Array.slice shown).

(** What a row prints for the magnitude: the number, or a dash when
    [f.magnitude] is nullish. *)
Inductive shown_magnitude : Type :=
| Dash
| Number (x : float).

Definition display_magnitude (m : optnum) : shown_magnitude :=
  match m with
  | Num x => Number x
  | Null | Undefined => Dash
  end.

Record Row : Type := {
  row_key : string;
  row_place : string;
  row_magnitude : shown_magnitude;
  row_time : float;
  row_href : string;
}.

Definition list_row (f : Quake) : Row := {|
  row_key := id f;
  row_place := place f;
  row_magnitude := display_magnitude (magnitude f);
  row_time := time f;
  row_href := url f;
|}.

Definition list_rows (shown : list Quake) : list Row :=
  Array.map list_row (list_order shown).

(** ** Map framing *)

(** The [features] prop of [FitBounds]: objects of which only
    [geometry.coordinates] is read; its entries may be [undefined]. *)
Record BoundsFeature : Type := {
  bf_coordinates : list optnum;
}.

(** [arr[i]] where the entries are numbers or [undefined]. *)
Definition item (arr : list optnum) (i : nat) : optnum := nth i arr Undefined.

(** [filtered.map((f) => ({ geometry: { coordinates: [f.coords[0], f.coords[1]] } }))]. *)
Definition bounds_features (shown : list Quake) : list BoundsFeature :=
  Array.map (fun f => {| bf_coordinates := [longitude f; latitude f] |}) shown.

(** A [[lat, lon]] pair. *)
Definition LatLng : Type := (optnum * optnum)%type.

(** The operations the component invokes on the Leaflet map.  The widget is an
    external collaborator: its view is whatever the operations received so far
    make it, so the map is represented by their record. *)
Inductive MapCall : Type :=
| fitBounds (bounds : list LatLng) (padding : float * float).

Definition LeafletMap : Type := list MapCall.

(** [Boolean(pair)]: an array is an object, hence truthy. *)
Definition Boolean_of_array (pair : LatLng) : bool := true.

(** The callback of [features.map] in [FitBounds]:
    [const [lon, lat] = f.geometry.coordinates; return [lat, lon]]. *)
Definition lat_lon (f : BoundsFeature) : LatLng :=
  let lon := item (bf_coordinates f) 0 in
  let lat := item (bf_coordinates f) 1 in
  (lat, lon).

(** The effect of [FitBounds]; [features] may be missing ([!features]). *)
Definition FitBounds (features : option (list BoundsFeature)) (map : LeafletMap)
  : LeafletMap :=
  match features with
  | None => map
  | Some features =>
      if (List.length features =? 0)%nat then map
      else
        let bounds := Array.filter Boolean_of_array (Array.map lat_lon features) in
        if negb (List.length bounds =? 0)%nat
        then map ++ [fitBounds bounds (50, 50)%float]
        else map
  end.

(** ** Component state and fetch orchestration *)

(** The four [useState] cells. *)
Record State : Type := {
  data : list Quake;
  loading : bool;
  error : option string;
  minMag : float;
}.

(** The initial values: [useState([])], [useState(true)], [useState(null)],
    [useState(0)]. *)
Definition initial_state : State := {|
  data := [];
  loading := true;
  error := None;
  minMag := 0%float;
|}.

Definition setData (v : list Quake) (st : State) : State :=
  {| data := v; loading := loading st; error := error st; minMag := minMag st |}.

Definition setLoading (v : bool) (st : State) : State :=
  {| data := data st; loading := v; error := error st; minMag := minMag st |}.

Definition setError (v : string) (st : State) : State :=
  {| data := data st; loading := loading st; error := Some v; minMag := minMag st |}.

Definition setMinMag (v : float) (st : State) : State :=
  {| data := data st; loading := loading st; error := error st; minMag := v |}.

(** A thrown or rejected value, as far as the handler looks at it:
    [err.message], which may be missing. *)
Record Error : Type := {
  message : option string;
}.

(** [r.json()]: the parsed feed, or a rejection when the body does not parse. *)
Inductive Body : Type :=
| Parsed (json : Raw.FeatureCollection)
| Malformed (err : Error).

Record Response : Type := {
  ok : bool;
  body : Body;
}.

(** How a promise settles. *)
Inductive Settled (A : Type) : Type :=
| Fulfilled (value : A)
| Rejected (reason : Error).

Arguments Fulfilled {A} value.
Arguments Rejected {A} reason.

(** [promise.then(onFulfilled)]: a rejection passes through. *)
Definition then_ {A B : Type} (p : Settled A) (onFulfilled : A -> Settled B)
  : Settled B :=
  match p with
  | Fulfilled v => onFulfilled v
  | Rejected e => Rejected e
  end.

(** The first handler: [if (!r.ok) throw new Error(...); return r.json()]. *)
Definition check_ok (r : Response) : Settled Raw.FeatureCollection :=
  if negb (ok r) then Rejected {| message := Some "Network response was not ok"%string |}
  else
    match body r with
    | Parsed json => Fulfilled json
    | Malformed err => Rejected err
    end.

(** Truthiness of a string that may be missing. *)
Definition truthy (s : option string) : bool :=
  match s with
  | Some s => negb (s =? "")%string
  | None => false
  end.

(** [msg || fallback]. *)
Definition or_else (msg : option string) (fallback : string) : string :=
  match msg with
  | Some s => if truthy msg then s else fallback
  | None => fallback
  end.

(** The second handler; [mounted] is the flag of the effect's closure, read
    when the handler runs. *)
Definition on_json (mounted : bool) (json : Raw.FeatureCollection) (st : State)
  : State :=
  if negb mounted then st
  else setLoading false (setData (normalize json) st).

(** The [catch] handler. *)
Definition on_error (mounted : bool) (err : Error) (st : State) : State :=
  if negb mounted then st
  else setLoading false (setError (or_else (message err) "Failed to load") st).

(** [fetch(URL).then(check_ok).then(on_json).catch(on_error)], run once the
    fetch has settled with [res]. *)
Definition settle (mounted : bool) (res : Settled Response) (st : State) : State :=
  match then_ res check_ok with
  | Fulfilled json => on_json mounted json st
  | Rejected err => on_error mounted err st
  end.

(** The component together with the closure variable of its effect. *)
Record Session : Type := {
  ui : State;
  mounted : bool;
}.

(** First render followed by the effect body up to the [fetch] call:
    [let mounted = true; setLoading(true)]. *)
Definition mount : Session := {|
  ui := setLoading true initial_state;
  mounted := true;
|}.

Inductive Event : Type :=
| Unmount                         (* the cleanup [() => (mounted = false)] *)
| Settle (res : Settled Response)  (* the pending fetch settles *)
| Slide (v : float).               (* the slider's [onChange] *)

Definition step (s : Session) (e : Event) : Session :=
  match e with
  | Unmount => {| ui := ui s; mounted := false |}
  | Settle res => {| ui := settle (mounted s) res (ui s); mounted := mounted s |}
  | Slide v => {| ui := setMinMag v (ui s); mounted := mounted s |}
  end.

Definition run (s : Session) (events : list Event) : Session :=
  fold_left step events s.

(** The states of the fetch, read off the way the render branches on them:
    [error ? ... : loading ? ... : ...]. *)
Inductive Phase : Type :=
| Loading
| Loaded
| Failed.

Definition phase (st : State) : Phase :=
  if truthy (error st) then Failed
  else if loading st then Loading
  else Loaded.

(** A fetch that rejects, or responds with a non-success status. *)
Definition fetch_failed (res : Settled Response) : bool :=
  match res with
  | Rejected _ => true
  | Fulfilled r => negb (ok r)
  end.

(** ** What is rendered

    The main pane branches on [error], [loading] and [filtered.length]; the
    map, and [FitBounds] inside it, exist in the last branch only. *)
Inductive Pane : Type :=
| ErrorPane (msg : string)
| LoadingPane
| NoMatchPane
| MapPane (shown : list Quake).

Definition main_pane (st : State) : Pane :=
  let shown := filtered (data st) (minMag st) in
  let otherwise :=
    if loading st then LoadingPane
    else if (List.length shown =? 0)%nat then NoMatchPane
    else MapPane shown in
  match error st with
  | Some msg => if truthy (error st) then ErrorPane msg else otherwise
  | None => otherwise
  end.

(** The operations a render makes [FitBounds] invoke on the map it finds. *)
Definition frame (st : State) (map : LeafletMap) : LeafletMap :=
  match main_pane st with
  | MapPane shown => FitBounds (Some (bounds_features shown)) map
  | ErrorPane _ | LoadingPane | NoMatchPane => map
  end.

(** ** The order of the list view *)

(** The number a record is compared by: [magnitude ?? 0]. *)
Definition sort_key (q : Quake) : float := coalesce (magnitude q) 0.

Definition comparable (q : Quake) : Prop := is_nan (sort_key q) = false.

Definition descending (a b : Quake) : Prop := ge (sort_key a) (sort_key b) = true.

(** ** Order-preserving subsets

    [subseq l1 l2]: [l1] is [l2] with some elements left out, the others in
    their original order. *)
Inductive subseq {A : Type} : list A -> list A -> Prop :=
| subseq_nil : subseq [] []
| subseq_skip x l1 l2 : subseq l1 l2 -> subseq l1 (x :: l2)
| subseq_keep x l1 l2 : subseq l1 l2 -> subseq (x :: l1) (x :: l2).

(** ** Order of binary64 values

    The comparisons of [float] are specified on [spec_float].  [SFval] sends a
    value to the integer it denotes in units of [2^-1074] (the smallest
    subnormal), infinities beyond every finite value; on values that are not
    NaN the comparisons are those of these integers. *)

Definition SFis_nan (x : spec_float) : bool :=
  match x with
  | S754_nan => true
  | _ => false
  end.

Definition SFval (x : spec_float) : Z :=
  match x with
  | S754_zero _ => 0
  | S754_nan => 0
  | S754_infinity s => cond_Zopp s (2 ^ 2100)
  | S754_finite s m e => cond_Zopp s (Z.pos m * 2 ^ (e + 1074))
  end.

Definition fval (x : float) : Z := SFval (Prim2SF x).

(** ** Sample data *)

(** A [Math.pow] remainder that is exact at the exponents 1, 2 and 4. *)
Definition sample_pow (base exponent : float) : float :=
  if (exponent =? 1)%float then base
  else if (exponent =? 2)%float then (base * base)%float
  else if (exponent =? 4)%float then (base * base * base * base)%float
  else 1%float.

Definition sample_quake (name : string) (m : optnum) (xs : list float) : Quake := {|
  id := name;
  magnitude := m;
  place := "somewhere";
  time := 1700000000000%float;
  url := "https://example.org";
  coords := xs;
  depth := Array.get xs 2;
|}.

Definition quake_a : Quake := sample_quake "a" (Num 5.2) [10; 20; 7]%float.
Definition quake_b : Quake := sample_quake "b" (Num 1) [11; 21]%float.
Definition quake_c : Quake := sample_quake "c" Null [12; 22; 3]%float.
Definition quake_n : Quake := sample_quake "n" (Num nan) [13; 23; 3]%float.

Definition sample_feature : Raw.Feature := {|
  Raw.id := "us7000abcd";
  Raw.properties := {| Raw.mag := Num 4.5; Raw.place := "10 km N of X";
                       Raw.time := 1700000000000%float; Raw.url := "https://usgs.example" |};
  Raw.geometry := {| Raw.coordinates := [-120.5; 36.25]%float |};
|}.

(** ** Markers, popups and the sidebar *)

(** What a popup prints for the depth:
    [typeof f.depth === "number" ? `${f.depth} km` : dash]. *)
Inductive shown_depth : Type :=
| NoDepth
| Km (x : float).

Definition display_depth (d : optnum) : shown_depth :=
  match d with
  | Num x => Km x
  | Null | Undefined => NoDepth
  end.

Record PopupContent : Type := {
  popup_place : string;
  popup_magnitude : shown_magnitude;
  popup_depth : shown_depth;
  popup_time : float;
  popup_href : string;
}.

Record PathOptions : Type := {
  color : string;
  weight : float;
  fillOpacity : float;
}.

(** One [<CircleMarker>] with its [<Popup>]. *)
Record Marker : Type := {
  marker_key : string;
  center : LatLng;
  radius : float;
  pathOptions : PathOptions;
  popup : PopupContent;
}.

Section Markers.

Variable pow_approx : float -> float -> float.

(** The callback of [filtered.map((f) => <CircleMarker ...>)]. *)
Definition circle_marker (f : Quake) : Marker :=
  let lon := longitude f in
  let lat := latitude f in
  let mag := magnitude f in
  {| marker_key := id f;
     center := (lat, lon);
     radius := magToRadius pow_approx mag;
     pathOptions := {| color := magToColor mag; weight := 1; fillOpacity := 0.7 |};
     popup := {| popup_place := place f;
                 popup_magnitude := display_magnitude mag;
                 popup_depth := display_depth (depth f);
                 popup_time := time f;
                 popup_href := url f |} |}.

Definition markers (shown : list Quake) : list Marker :=
  Array.map circle_marker shown.

End Markers.

(** The sidebar: [data.length], [filtered.length] and the rows. *)
Record Sidebar : Type := {
  total : nat;
  showing : nat;
  rows : list Row;
}.

Definition sidebar (st : State) : Sidebar :=
  let shown := filtered (data st) (minMag st) in
  {| total := List.length (data st);
     showing := List.length shown;
     rows := list_rows shown |}.

(** ** Traces of a session *)

Definition is_settle (e : Event) : bool :=
  match e with
  | Settle _ => true
  | Unmount | Slide _ => false
  end.

(** How often the fetch settles in a trace; a promise settles once. *)
Definition settlements (events : list Event) : nat :=
  List.length (List.filter is_settle events).

(** ** The colour scale *)

(** The place of a token on the scale of [magToColor], from the token of the
    last branch (0) to the token of the first (5). *)
Definition shade (token : string) : nat :=
  if (token =? "#800026")%string then 5
  else if (token =? "#BD0026")%string then 4
  else if (token =? "#E31A1C")%string then 3
  else if (token =? "#FC4E2A")%string then 2
  else if (token =? "#FD8D3C")%string then 1
  else 0.

(** The raw features a threshold lets through, before normalization. *)
Definition raw_passes (minMag : float) (f : Raw.Feature) : bool :=
  ge (coalesce (Raw.mag (Raw.properties f)) 0) minMag.

(** ** Division by 1.4

    The mantissa of the double [1.4] (its exponent is -52). *)
Definition c14 : positive := 6305039478318694.

(** The last step of the rounding of [SpecFloat]: the rounded mantissa is
    brought back to 53 digits and the exponent checked against overflow. *)
Definition SFround_finish (M E : Z) : spec_float :=
  let '(mrs, e) := shr_fexp prec emax M E loc_Exact in
  match shr_m mrs with
  | Z0 => S754_zero false
  | Zpos m => if Z.leb e (emax - prec) then S754_finite false m e else S754_infinity false
  | Zneg _ => S754_nan
  end.

(** [div14_rounds V W]: [W] is a double nearest to [V / 1.4], both in units of
    [2^-1074]: a multiple [M] of the spacing [2^E] of the doubles around the
    quotient [N / c14] (in that spacing), at most half a spacing away from
    it. *)
Definition div14_rounds (V W : Z) : Prop :=
  exists E M N : Z,
    (-1074 <= E)%Z /\ (0 <= M)%Z
    /\ W = (M * 2 ^ (E + 1074))%Z
    /\ (V * 2 ^ 52 = N * 2 ^ (E + 1074))%Z
    /\ (2 * Z.abs (M * Z.pos c14 - N) <= Z.pos c14)%Z
    /\ (N < 2 ^ 53 * Z.pos c14)%Z
    /\ (-1074 < E -> 2 ^ 52 * Z.pos c14 <= N)%Z.

(** A [Math.pow] remainder that is non-decreasing in the exponent: a
    staircase under the powers of 2, exact at the exponents 2 and 4. *)
Definition staircase_pow (base exponent : float) : float :=
  if (exponent <? 2)%float then 1%float
  else if (exponent <? 4)%float then (base * base)%float
  else (base * base * base * base)%float.

(** * Properties *)

(** ** The order of binary64 values *)

Lemma digits2_pos_size p : digits2_pos p = Pos.size p.
Proof. induction p; simpl; congruence. Qed.

Lemma digits2_upper p : (Z.pos p < 2 ^ Z.pos (digits2_pos p))%Z.
Proof.
  rewrite digits2_pos_size.
  pose proof (Pos.size_gt p) as H.
  apply Pos2Z.pos_lt_pos in H. rewrite Pos2Z.inj_pow in H. exact H.
Qed.

Lemma digits2_lower p : (2 ^ (Z.pos (digits2_pos p) - 1) <= Z.pos p)%Z.
Proof.
  rewrite digits2_pos_size.
  pose proof (Pos.size_le p) as H.
  apply Pos2Z.pos_le_pos in H. rewrite Pos2Z.inj_pow in H.
  replace (Z.pos (Pos.size p)) with (Z.succ (Z.pos (Pos.size p) - 1)) in H by lia.
  rewrite Z.pow_succ_r in H by lia.
  change (Z.pos p~0) with (2 * Z.pos p)%Z in H. lia.
Qed.

Lemma valid_finite s m e :
  valid_binary (S754_finite s m e) = true ->
  (-1074 <= e <= 971 /\ 0 < Z.pos m < 2 ^ 53 /\ (-1074 < e -> 2 ^ 52 <= Z.pos m))%Z.
Proof.
  cbn [SpecFloat.valid_binary]. unfold bounded, canonical_mantissa, fexp.
  change (SpecFloat.emin prec emax) with (-1074)%Z.
  change prec with 53%Z. change emax with 1024%Z.
  intros H. apply andb_true_iff in H. destruct H as [H1 H2].
  apply Z.eqb_eq in H1. apply Z.leb_le in H2.
  pose proof (digits2_upper m) as Hu. pose proof (digits2_lower m) as Hl.
  set (d := Z.pos (digits2_pos m)) in *.
  assert (Hd : (d <= 53)%Z) by lia.
  split; [lia|]. split.
  - split; [lia|]. eapply Z.lt_le_trans; [exact Hu|]. apply Z.pow_le_mono_r; lia.
  - intros He. assert (d = 53)%Z by lia. replace (52)%Z with (d - 1)%Z by lia. exact Hl.
Qed.

Lemma mag_compare m1 e1 m2 e2 :
  valid_binary (S754_finite false m1 e1) = true ->
  valid_binary (S754_finite false m2 e2) = true ->
  match (e1 ?= e2)%Z with
  | Lt => Lt | Gt => Gt | Eq => Pos.compare_cont Eq m1 m2
  end = (Z.pos m1 * 2 ^ (e1 + 1074) ?= Z.pos m2 * 2 ^ (e2 + 1074))%Z.
Proof.
  intros V1 V2. apply valid_finite in V1, V2.
  destruct V1 as (E1 & M1 & N1), V2 as (E2 & M2 & N2).
  destruct (Z.compare_spec e1 e2) as [-> | Hlt | Hgt].
  - change (Pos.compare_cont Eq m1 m2) with (Z.pos m1 ?= Z.pos m2)%Z.
    apply Zmult_compare_compat_r. apply Z.lt_gt, Z.pow_pos_nonneg; lia.
  - symmetry. apply Z.compare_lt_iff.
    replace (e2 + 1074)%Z with ((e1 + 1074) + (e2 - e1))%Z by lia.
    rewrite (Z.pow_add_r 2 (e1 + 1074) (e2 - e1)) by lia.
    assert (0 < 2 ^ (e1 + 1074))%Z by (apply Z.pow_pos_nonneg; lia).
    assert (2 ^ 1 <= 2 ^ (e2 - e1))%Z by (apply Z.pow_le_mono_r; lia).
    specialize (N2 ltac:(lia)).
    assert (Z.pos m1 < 2 * Z.pos m2)%Z by (change (2 ^ 53)%Z with (2 * 2 ^ 52)%Z in *; lia).
    apply Z.lt_le_trans with (2 * Z.pos m2 * 2 ^ (e1 + 1074))%Z.
    + apply Z.mul_lt_mono_pos_r; lia.
    + change (2 ^ 1)%Z with 2%Z in *.
      set (P := (2 ^ (e1 + 1074))%Z) in *. set (Q := (2 ^ (e2 - e1))%Z) in *. nia.
  - symmetry. apply Z.compare_gt_iff.
    replace (e1 + 1074)%Z with ((e2 + 1074) + (e1 - e2))%Z by lia.
    rewrite (Z.pow_add_r 2 (e2 + 1074) (e1 - e2)) by lia.
    assert (0 < 2 ^ (e2 + 1074))%Z by (apply Z.pow_pos_nonneg; lia).
    assert (2 ^ 1 <= 2 ^ (e1 - e2))%Z by (apply Z.pow_le_mono_r; lia).
    specialize (N1 ltac:(lia)).
    assert (Z.pos m2 < 2 * Z.pos m1)%Z by (change (2 ^ 53)%Z with (2 * 2 ^ 52)%Z in *; lia).
    apply Z.lt_le_trans with (2 * Z.pos m1 * 2 ^ (e2 + 1074))%Z.
    + apply Z.mul_lt_mono_pos_r; lia.
    + change (2 ^ 1)%Z with 2%Z in *.
      set (P := (2 ^ (e2 + 1074))%Z) in *. set (Q := (2 ^ (e1 - e2))%Z) in *. nia.
Qed.

Lemma finite_val_bound s m e :
  valid_binary (S754_finite s m e) = true ->
  (0 < Z.pos m * 2 ^ (e + 1074) < 2 ^ 2100)%Z.
Proof.
  intros V. apply valid_finite in V. destruct V as (E & M & _).
  assert (P : (0 < 2 ^ (e + 1074))%Z) by (apply Z.pow_pos_nonneg; lia).
  assert (Q : (2 ^ (e + 1074) < 2 ^ 2046)%Z) by (apply Z.pow_lt_mono_r; lia).
  split; [nia|].
  apply Z.lt_le_trans with (2 ^ 53 * 2 ^ 2046)%Z.
  - apply Z.mul_lt_mono_nonneg; lia.
  - rewrite <- Z.pow_add_r by lia. apply Z.pow_le_mono_r; lia.
Qed.

Lemma SFcompare_val x y :
  valid_binary x = true -> valid_binary y = true ->
  SFis_nan x = false -> SFis_nan y = false ->
  SFcompare x y = Some (SFval x ?= SFval y)%Z.
Proof.
  intros Vx Vy Nx Ny.
  destruct x as [sx|sx| |sx mx ex], y as [sy|sy| |sy my ey]; try discriminate; clear Nx Ny.
  all: try (pose proof (finite_val_bound _ _ _ Vx) as Bx).
  all: try (pose proof (finite_val_bound _ _ _ Vy) as By).
  all: cbn [SFcompare SFval].
  all: try (destruct sx); try (destruct sy); cbn [cond_Zopp]; try reflexivity.
  all: try (f_equal; symmetry;
    first [ apply Z.compare_lt_iff; lia | apply Z.compare_gt_iff; lia
          | apply Z.compare_eq_iff; lia ]).
  - f_equal. rewrite Z.compare_opp, <- (mag_compare my ey mx ex Vy Vx).
    rewrite (Z.compare_antisym ex ey).
    destruct (ex ?= ey)%Z; cbn [CompOpp]; try reflexivity.
    symmetry. apply (Pos.compare_antisym mx my).
  - f_equal. apply (mag_compare mx ex my ey Vx Vy).
Qed.

(** Rounding a positive mantissa at an exponent of the format gives a
    non-zero result of the same sign: a difference never rounds to zero. *)

Lemma iter_shr_1_pos p : forall m r s,
  (Z.pos p < Z.pos (digits2_pos m))%Z ->
  exists m' r' s',
    iter_pos shr_1 p (Build_shr_record (Z.pos m) r s) = Build_shr_record (Z.pos m') r' s'
    /\ (Z.pos (digits2_pos m') = Z.pos (digits2_pos m) - Z.pos p)%Z.
Proof.
  assert (step : forall m r s, (1 < Z.pos (digits2_pos m))%Z ->
     exists m' r' s', shr_1 (Build_shr_record (Z.pos m) r s) = Build_shr_record (Z.pos m') r' s'
       /\ (Z.pos (digits2_pos m') = Z.pos (digits2_pos m) - 1)%Z).
  { intros m r s H. destruct m as [q|q|]; cbn [shr_1 digits2_pos] in *.
    - exists q, true, (r || s)%bool. split; [reflexivity | lia].
    - exists q, false, (r || s)%bool. split; [reflexivity | lia].
    - lia. }
  induction p as [p IH|p IH|]; intros m r s H; cbn [iter_pos].
  - destruct (step m r s ltac:(lia)) as (m0 & r0 & s0 & -> & D0).
    destruct (IH m0 r0 s0 ltac:(lia)) as (m1 & r1 & s1 & -> & D1).
    destruct (IH m1 r1 s1 ltac:(lia)) as (m2 & r2 & s2 & -> & D2).
    exists m2, r2, s2. split; [reflexivity | lia].
  - destruct (IH m r s ltac:(lia)) as (m1 & r1 & s1 & -> & D1).
    destruct (IH m1 r1 s1 ltac:(lia)) as (m2 & r2 & s2 & -> & D2).
    exists m2, r2, s2. split; [reflexivity | lia].
  - destruct (step m r s ltac:(lia)) as (m0 & r0 & s0 & -> & D0).
    exists m0, r0, s0. split; [reflexivity | lia].
Qed.

Lemma shr_fexp_pos m e l :
  (-1074 <= e)%Z ->
  exists m' r' s' e',
    shr_fexp prec emax (Z.pos m) e l = (Build_shr_record (Z.pos m') r' s', e')
    /\ (-1074 <= e')%Z.
Proof.
  intros He. unfold shr_fexp, fexp, shr. cbn [Zdigits2].
  change (SpecFloat.emin prec emax) with (-1074)%Z. change prec with 53%Z.
  destruct (shr_record_of_loc (Z.pos m) l) as [m0 r0 s0] eqn:R.
  assert (m0 = Z.pos m) as -> by (destruct l as [|[]]; inversion R; reflexivity).
  destruct (Z.max (Z.pos (digits2_pos m) + e - 53) (-1074) - e)%Z as [|p|p] eqn:N.
  - exists m, r0, s0, e. auto.
  - destruct (iter_shr_1_pos p m r0 s0 ltac:(lia)) as (m1 & r1 & s1 & -> & _).
    exists m1, r1, s1, (e + Z.pos p)%Z. split; [reflexivity | lia].
  - exists m, r0, s0, e. auto.
Qed.

Lemma binary_round_aux_sign s m e l :
  (-1074 <= e)%Z ->
  (exists m' e', binary_round_aux prec emax s (Z.pos m) e l = S754_finite s m' e')
  \/ binary_round_aux prec emax s (Z.pos m) e l = S754_infinity s.
Proof.
  intros He. unfold binary_round_aux.
  destruct (shr_fexp_pos m e l He) as (m1 & r1 & s1 & e1 & -> & He1).
  cbn [shr_m].
  assert (exists m2, round_nearest_even (Z.pos m1)
            (loc_of_shr_record (Build_shr_record (Z.pos m1) r1 s1)) = Z.pos m2) as [m2 ->].
  { unfold round_nearest_even.
    destruct (loc_of_shr_record _) as [|[]]; try destruct (Z.even _); eauto;
      exists (m1 + 1)%positive; reflexivity. }
  destruct (shr_fexp_pos m2 e1 loc_Exact He1) as (m3 & r3 & s3 & e3 & -> & _).
  cbn [shr_m]. destruct (Z.leb e3 _); eauto.
Qed.

Lemma binary_round_sign s m e :
  (-1074 <= e)%Z ->
  (exists m' e', binary_round prec emax s m e = S754_finite s m' e')
  \/ binary_round prec emax s m e = S754_infinity s.
Proof.
  intros He. unfold binary_round.
  destruct (shl_align m e _) as [mz ez] eqn:A.
  apply binary_round_aux_sign.
  unfold shl_align, fexp in A. change (SpecFloat.emin prec emax) with (-1074)%Z in A.
  destruct (Z.max _ _ - e)%Z eqn:N; inversion A; subst; lia.
Qed.

Lemma shl_align_val m e ez :
  (-1074 <= ez <= e)%Z ->
  (Z.pos (fst (shl_align m e ez)) * 2 ^ (ez + 1074) = Z.pos m * 2 ^ (e + 1074))%Z.
Proof.
  intros H. unfold shl_align.
  destruct (ez - e)%Z as [|d|d] eqn:D; cbn [fst].
  - replace ez with e by lia. reflexivity.
  - lia.
  - change (Pos.iter xO m d) with (shift_pos d m).
    rewrite shift_pos_correct, Zpower_pos_nat, Zpower_nat_Z, positive_nat_Z.
    replace (e + 1074)%Z with (Z.pos d + (ez + 1074))%Z by lia.
    rewrite (Z.pow_add_r 2 (Z.pos d) (ez + 1074)) by lia. ring.
Qed.

Lemma SFsub_finite_sign sx mx ex sy my ey :
  valid_binary (S754_finite sx mx ex) = true ->
  valid_binary (S754_finite sy my ey) = true ->
  SFltb (S754_zero false) (SF64sub (S754_finite sy my ey) (S754_finite sx mx ex))
  = (SFval (S754_finite sx mx ex) <? SFval (S754_finite sy my ey))%Z.
Proof.
  intros Vx Vy.
  pose proof (valid_finite _ _ _ Vx) as (Ex & _ & _).
  pose proof (valid_finite _ _ _ Vy) as (Ey & _ & _).
  unfold SF64sub. cbn [SFsub SFval].
  set (ez := Z.min ey ex).
  pose proof (shl_align_val my ey ez ltac:(lia)) as Ay.
  pose proof (shl_align_val mx ex ez ltac:(lia)) as Ax.
  set (ay := Z.pos (fst (shl_align my ey ez))) in *.
  set (ax := Z.pos (fst (shl_align mx ex ez))) in *.
  assert (P : (0 < 2 ^ (ez + 1074))%Z) by (apply Z.pow_pos_nonneg; lia).
  assert (D : ((cond_Zopp sy ay - cond_Zopp sx ax) * 2 ^ (ez + 1074)
               = cond_Zopp sy (Z.pos my * 2 ^ (ey + 1074))
                 - cond_Zopp sx (Z.pos mx * 2 ^ (ex + 1074)))%Z).
  { rewrite <- Ay, <- Ax. destruct sx, sy; cbn [cond_Zopp]; ring. }
  set (vy := cond_Zopp sy (Z.pos my * 2 ^ (ey + 1074))) in *.
  set (vx := cond_Zopp sx (Z.pos mx * 2 ^ (ex + 1074))) in *.
  destruct (cond_Zopp sy ay - cond_Zopp sx ax)%Z as [|d|d] eqn:Ed; cbn [binary_normalize].
  - cbn. symmetry. apply Z.ltb_ge. lia.
  - destruct (binary_round_sign false d ez ltac:(lia)) as [(m' & e' & ->) | ->];
      cbn; symmetry; apply Z.ltb_lt; nia.
  - destruct (binary_round_sign true d ez ltac:(lia)) as [(m' & e' & ->) | ->];
      cbn; symmetry; apply Z.ltb_ge; nia.
Qed.

Lemma SFltb_val x y :
  valid_binary x = true -> valid_binary y = true ->
  SFltb x y = (negb (SFis_nan x) && negb (SFis_nan y) && (SFval x <? SFval y)%Z)%bool.
Proof.
  intros Vx Vy. unfold SFltb.
  destruct (SFis_nan x) eqn:Nx; [destruct x; try discriminate; reflexivity|].
  destruct (SFis_nan y) eqn:Ny; [destruct x, y; try discriminate; reflexivity|].
  rewrite (SFcompare_val x y Vx Vy Nx Ny). cbn [negb andb].
  unfold Z.ltb. destruct (SFval x ?= SFval y)%Z; reflexivity.
Qed.

Lemma SFleb_val x y :
  valid_binary x = true -> valid_binary y = true ->
  SFleb x y = (negb (SFis_nan x) && negb (SFis_nan y) && (SFval x <=? SFval y)%Z)%bool.
Proof.
  intros Vx Vy. unfold SFleb.
  destruct (SFis_nan x) eqn:Nx; [destruct x; try discriminate; reflexivity|].
  destruct (SFis_nan y) eqn:Ny; [destruct x, y; try discriminate; reflexivity|].
  rewrite (SFcompare_val x y Vx Vy Nx Ny). cbn [negb andb].
  unfold Z.leb. destruct (SFval x ?= SFval y)%Z; reflexivity.
Qed.

Lemma SFeqb_refl x :
  valid_binary x = true -> SFeqb x x = negb (SFis_nan x).
Proof.
  intros Vx. unfold SFeqb.
  destruct (SFis_nan x) eqn:Nx; [destruct x; try discriminate; reflexivity|].
  rewrite (SFcompare_val x x Vx Vx Nx Nx), Z.compare_refl. reflexivity.
Qed.

Lemma SFsub_sign x y :
  valid_binary x = true -> valid_binary y = true ->
  SFltb (S754_zero false) (SF64sub y x) = SFltb x y.
Proof.
  intros Vx Vy.
  destruct x as [sx|sx| |sx mx ex], y as [sy|sy| |sy my ey].
  all: try (rewrite (SFsub_finite_sign _ _ _ _ _ _ Vx Vy), (SFltb_val _ _ Vx Vy); reflexivity).
  all: try destruct sx; try destruct sy; reflexivity.
Qed.

(** A quotient by a finite number is NaN only if the dividend is. *)

Lemma iter_pos_invariant {A : Type} (P : A -> Prop) (f : A -> A) :
  (forall x, P x -> P (f x)) -> forall n x, P x -> P (iter_pos f n x).
Proof.
  intros Hf. induction n as [n IH|n IH|]; intros x Hx; cbn [iter_pos]; auto.
Qed.

Lemma shr_1_nonneg mrs : (0 <= shr_m mrs)%Z -> (0 <= shr_m (shr_1 mrs))%Z.
Proof.
  destruct mrs as [m r s]. cbn [shr_m]. intros H.
  destruct m as [|[p|p|]|p]; cbn; lia.
Qed.

Lemma shr_fexp_nonneg m e l :
  (0 <= m)%Z -> (0 <= shr_m (fst (shr_fexp prec emax m e l)))%Z.
Proof.
  intros Hm. unfold shr_fexp, shr.
  assert (H0 : (0 <= shr_m (shr_record_of_loc m l))%Z)
    by (destruct l as [|[]]; exact Hm).
  destruct (fexp prec emax (Zdigits2 m + e) - e)%Z; cbn [fst]; auto.
  apply (iter_pos_invariant (fun mrs => (0 <= shr_m mrs)%Z)); auto using shr_1_nonneg.
Qed.

Lemma binary_round_aux_number s m e l :
  (0 <= m)%Z -> SFis_nan (binary_round_aux prec emax s m e l) = false.
Proof.
  intros Hm. unfold binary_round_aux.
  pose proof (shr_fexp_nonneg m e l Hm) as H1.
  destruct (shr_fexp prec emax m e l) as [mrs1 e1]. cbn [fst] in H1.
  assert (H2 : (0 <= round_nearest_even (shr_m mrs1) (loc_of_shr_record mrs1))%Z).
  { unfold round_nearest_even.
    destruct (loc_of_shr_record mrs1) as [|[]]; try destruct (Z.even _); lia. }
  pose proof (shr_fexp_nonneg _ e1 loc_Exact H2) as H3.
  destruct (shr_fexp prec emax _ e1 loc_Exact) as [mrs2 e2]. cbn [fst] in H3.
  destruct (shr_m mrs2); [reflexivity | destruct (Z.leb _ _); reflexivity | lia].
Qed.

Lemma SFdiv_core_nonneg m1 e1 m2 e2 :
  let '(q, _, _) := SFdiv_core_binary prec emax (Z.pos m1) e1 (Z.pos m2) e2 in (0 <= q)%Z.
Proof.
  unfold SFdiv_core_binary.
  set (s := (e1 - e2 - _)%Z).
  set (m' := match s with Z.pos _ => Z.shiftl (Z.pos m1) s | 0%Z => Z.pos m1 | Z.neg _ => 0%Z end).
  assert (Hm' : (0 <= m')%Z).
  { unfold m'. destruct s; try lia. apply Z.shiftl_nonneg. lia. }
  pose proof (Z.div_eucl_eq m' (Z.pos m2) ltac:(lia)) as E.
  pose proof (Z.mod_pos_bound m' (Z.pos m2) ltac:(lia)) as B.
  unfold Z.modulo in B.
  destruct (Z.div_eucl m' (Z.pos m2)) as [q r]. nia.
Qed.

Lemma SFdiv_number x y :
  SFis_nan x = false -> (exists s m e, y = S754_finite s m e) ->
  SFis_nan (SF64div x y) = false.
Proof.
  intros Nx (sy & my & ey & ->).
  destruct x as [sx|sx| |sx mx ex]; try discriminate; try reflexivity.
  unfold SF64div. cbn [SFdiv].
  pose proof (SFdiv_core_nonneg mx ex my ey) as H.
  destruct (SFdiv_core_binary prec emax (Z.pos mx) ex (Z.pos my) ey) as [[q e'] l].
  now apply binary_round_aux_number.
Qed.

(** The same facts on [float], through the specification of the primitives. *)

Lemma is_nan_spec x : is_nan x = SFis_nan (Prim2SF x).
Proof.
  unfold is_nan. rewrite FloatAxioms.eqb_spec, (SFeqb_refl _ (Prim2SF_valid x)).
  apply negb_involutive.
Qed.

Lemma leb_val x y :
  (x <=? y)%float
  = (negb (is_nan x) && negb (is_nan y) && (fval x <=? fval y)%Z)%bool.
Proof.
  rewrite FloatAxioms.leb_spec, !is_nan_spec.
  apply SFleb_val; apply Prim2SF_valid.
Qed.

Lemma ltb_val x y :
  (x <? y)%float
  = (negb (is_nan x) && negb (is_nan y) && (fval x <? fval y)%Z)%bool.
Proof.
  rewrite FloatAxioms.ltb_spec, !is_nan_spec.
  apply SFltb_val; apply Prim2SF_valid.
Qed.

Lemma leb_true x y :
  (x <=? y)%float = true <->
  is_nan x = false /\ is_nan y = false /\ (fval x <= fval y)%Z.
Proof.
  rewrite leb_val, !andb_true_iff, !negb_true_iff, Z.leb_le. tauto.
Qed.

Lemma ltb_true x y :
  (x <? y)%float = true <->
  is_nan x = false /\ is_nan y = false /\ (fval x < fval y)%Z.
Proof.
  rewrite ltb_val, !andb_true_iff, !negb_true_iff, Z.ltb_lt. tauto.
Qed.

Lemma leb_false x y :
  is_nan x = false -> is_nan y = false ->
  (x <=? y)%float = false <-> (fval y < fval x)%Z.
Proof.
  intros Nx Ny. rewrite leb_val, Nx, Ny. cbn [negb andb]. apply Z.leb_gt.
Qed.

Lemma ltb_false x y :
  is_nan x = false -> is_nan y = false ->
  (x <? y)%float = false <-> (fval y <= fval x)%Z.
Proof.
  intros Nx Ny. rewrite ltb_val, Nx, Ny. cbn [negb andb]. apply Z.ltb_ge.
Qed.

Lemma eqb_true x y :
  (x =? y)%float = true <->
  is_nan x = false /\ is_nan y = false /\ fval x = fval y.
Proof.
  rewrite FloatAxioms.eqb_spec, !is_nan_spec. unfold SFeqb, fval.
  pose proof (Prim2SF_valid x) as Vx. pose proof (Prim2SF_valid y) as Vy.
  destruct (SFis_nan (Prim2SF x)) eqn:Nx.
  { destruct (Prim2SF x); try discriminate. cbn. intuition discriminate. }
  destruct (SFis_nan (Prim2SF y)) eqn:Ny.
  { destruct (Prim2SF x), (Prim2SF y); try discriminate; cbn; intuition discriminate. }
  rewrite (SFcompare_val _ _ Vx Vy Nx Ny).
  destruct (Z.compare_spec (SFval (Prim2SF x)) (SFval (Prim2SF y))); split;
    try tauto; try discriminate; intros (_ & _ & E); lia.
Qed.

(** The sign of a difference is the order of its operands, for all operands:
    [0 < y - x] exactly when [x < y]. *)
Lemma sub_sign x y : (0 <? y - x)%float = (x <? y)%float.
Proof.
  rewrite !FloatAxioms.ltb_spec, FloatAxioms.sub_spec.
  change (Prim2SF 0) with (S754_zero false).
  apply SFsub_sign; apply Prim2SF_valid.
Qed.

(** [ge] is a preorder on the numbers that are not NaN, and total there. *)
Lemma ge_true a b :
  ge a b = true <-> is_nan a = false /\ is_nan b = false /\ (fval b <= fval a)%Z.
Proof. unfold ge. rewrite leb_true. tauto. Qed.

Lemma ge_trans a b c : ge a b = true -> ge b c = true -> ge a c = true.
Proof. rewrite !ge_true. intuition lia. Qed.

Lemma ge_nan_l a b : is_nan a = true -> ge a b = false.
Proof.
  intros H. destruct (ge a b) eqn:E; [|reflexivity].
  apply ge_true in E. destruct E as (E & _). congruence.
Qed.

Lemma ge_nan_r a b : is_nan b = true -> ge a b = false.
Proof.
  intros H. destruct (ge a b) eqn:E; [|reflexivity].
  apply ge_true in E. destruct E as (_ & E & _). congruence.
Qed.

(** ** Array built-ins *)

Lemma Array_filter_acc {A : Type} (p : A -> bool) (l acc : list A) :
  fold_left (fun acc kValue => if p kValue then acc ++ [kValue] else acc) l acc
  = acc ++ List.filter p l.
Proof.
  revert acc. induction l as [|x l IH]; intros acc; cbn [fold_left List.filter].
  - now rewrite app_nil_r.
  - rewrite IH. destruct (p x); [now rewrite <- app_assoc | reflexivity].
Qed.

Lemma Array_filter_eq {A : Type} (p : A -> bool) (l : list A) :
  Array.filter p l = List.filter p l.
Proof. unfold Array.filter. now rewrite Array_filter_acc. Qed.

Lemma filter_subseq {A : Type} (p : A -> bool) (l : list A) :
  subseq (List.filter p l) l.
Proof.
  induction l as [|x l IH]; cbn [List.filter].
  - constructor.
  - destruct (p x); now constructor.
Qed.

Lemma filter_length_mono {A : Type} (p q : A -> bool) (l : list A) :
  (forall x, p x = true -> q x = true) ->
  (List.length (List.filter p l) <= List.length (List.filter q l))%nat.
Proof.
  intros Hpq. induction l as [|x l IH]; cbn [List.filter]; [lia|].
  destruct (p x) eqn:Px.
  - rewrite (Hpq x Px). cbn [List.length]. lia.
  - destruct (q x); cbn [List.length]; lia.
Qed.

Lemma Array_get_undefined (arr : list float) (i : nat) :
  Array.get arr i = Undefined <-> (List.length arr <= i)%nat.
Proof.
  unfold Array.get. destruct (nth_error arr i) eqn:E.
  - split; [discriminate|]. intros H. apply nth_error_None in H. congruence.
  - split; [|reflexivity]. intros _. now apply nth_error_None.
Qed.

(** ** The filtered view *)

Lemma filtered_eq (data : list Quake) (t : float) :
  filtered data t = List.filter (passes t) data.
Proof. apply Array_filter_eq. Qed.

Lemma passes_nullish (t : float) (q : Quake) :
  loosely_null (magnitude q) = true -> passes t q = ge 0 t.
Proof. unfold passes. destruct (magnitude q); [reflexivity | reflexivity | discriminate]. Qed.

(** C1: the filtered view is exactly the records [q] of the normalized set, in
    input order, with [(magnitude(q) ?? 0) >= t]; a record whose magnitude is
    null or missing is compared as 0, so it is left out whenever [t > 0]. *)
Theorem filtered_threshold_subset (data : list Quake) (t : float) :
  filtered data t
    = List.filter (fun q => ge (coalesce (magnitude q) 0) t) data
  /\ subseq (filtered data t) data
  /\ (forall q, In q (filtered data t)
                <-> In q data /\ ge (coalesce (magnitude q) 0) t = true)
  /\ (forall q, loosely_null (magnitude q) = true ->
                (0 <? t)%float = true -> ~ In q (filtered data t)).
Proof.
  rewrite filtered_eq. split; [reflexivity|]. split; [apply filter_subseq|].
  split.
  - intros q. apply filter_In.
  - intros q Hnull Hpos Hin. apply filter_In in Hin. destruct Hin as [_ Hp].
    rewrite (passes_nullish t q Hnull) in Hp.
    apply ge_true in Hp. apply ltb_true in Hpos. lia.
Qed.

Lemma filtered_threshold_subset_witness :
  filtered [quake_a; quake_b; quake_c] 2 = [quake_a]
  /\ ~ In quake_c (filtered [quake_a; quake_b; quake_c] 2).
Proof.
  pose proof (filtered_threshold_subset [quake_a; quake_b; quake_c] 2)
    as (_ & _ & _ & H).
  split; [vm_compute; reflexivity|].
  apply H; vm_compute; reflexivity.
Defined.

(** C2: for a fixed normalized set, raising the threshold from [t1] to [t2]
    never lengthens the filtered view. *)
Theorem filtered_length_antitone (data : list Quake) (t1 t2 : float) :
  (t1 <=? t2)%float = true ->
  (List.length (filtered data t2) <= List.length (filtered data t1))%nat.
Proof.
  intros H12. rewrite !filtered_eq. apply filter_length_mono.
  intros q. unfold passes. intros H2. eapply ge_trans; [exact H2 | exact H12].
Qed.

Lemma filtered_length_antitone_witness :
  (List.length (filtered [quake_a; quake_b; quake_c] 2)
   <= List.length (filtered [quake_a; quake_b; quake_c] 0.5))%nat.
Proof.
  apply (filtered_length_antitone [quake_a; quake_b; quake_c] 0.5 2).
  vm_compute; reflexivity.
Defined.

(** C10: a record whose magnitude is NaN is left out at every threshold, zero
    included, because [NaN ?? 0] is NaN and [NaN >= t] is false for all [t];
    a record whose magnitude is null or missing is shown at threshold 0. *)
Theorem filtered_excludes_nan (data : list Quake) (q : Quake) (m : float) :
  magnitude q = Num m -> is_nan m = true ->
  (forall t, ~ In q (filtered data t))
  /\ (forall q0, In q0 data -> loosely_null (magnitude q0) = true ->
                 In q0 (filtered data 0)).
Proof.
  intros Hm Hnan. split.
  - intros t Hin. rewrite filtered_eq in Hin. apply filter_In in Hin.
    destruct Hin as [_ Hp]. unfold passes in Hp. rewrite Hm in Hp. cbn [coalesce] in Hp.
    rewrite (ge_nan_l m t Hnan) in Hp. discriminate.
  - intros q0 Hin Hnull. rewrite filtered_eq. apply filter_In. split; [exact Hin|].
    rewrite (passes_nullish 0 q0 Hnull). vm_compute; reflexivity.
Qed.

Lemma filtered_excludes_nan_witness :
  ~ In quake_n (filtered [quake_n; quake_c] 0)
  /\ In quake_c (filtered [quake_n; quake_c] 0).
Proof.
  destruct (filtered_excludes_nan [quake_n; quake_c] quake_n nan) as [H1 H2];
    [reflexivity | vm_compute; reflexivity |].
  split; [apply H1|].
  apply H2; [right; left; reflexivity | reflexivity].
Defined.

(** ** Normalization *)

(** C3: normalization keeps length and order; the i-th record copies the i-th
    feature's id, magnitude, place, time and url, reads longitude, latitude and
    depth from the coordinate tuple, and its depth is undefined exactly when
    the tuple has no third element. *)
Theorem normalize_preserves (json : Raw.FeatureCollection) :
  List.length (normalize json) = List.length (features_or_empty json)
  /\ forall (i : nat) (f : Raw.Feature),
       nth_error (features_or_empty json) i = Some f ->
       exists q : Quake,
         nth_error (normalize json) i = Some q
         /\ id q = Raw.id f
         /\ magnitude q = Raw.mag (Raw.properties f)
         /\ place q = Raw.place (Raw.properties f)
         /\ time q = Raw.time (Raw.properties f)
         /\ url q = Raw.url (Raw.properties f)
         /\ longitude q = Array.get (Raw.coordinates (Raw.geometry f)) 0
         /\ latitude q = Array.get (Raw.coordinates (Raw.geometry f)) 1
         /\ depth q = Array.get (Raw.coordinates (Raw.geometry f)) 2
         /\ (depth q = Undefined
             <-> (List.length (Raw.coordinates (Raw.geometry f)) <= 2)%nat).
Proof.
  unfold normalize, Array.map. split; [apply length_map|].
  intros i f Hf. exists (normalize_feature f).
  split; [now apply map_nth_error|].
  repeat (split; [reflexivity|]).
  apply Array_get_undefined.
Qed.

Lemma normalize_preserves_witness :
  exists q : Quake,
    nth_error (normalize {| Raw.features := Some [sample_feature] |}) 0 = Some q
    /\ id q = "us7000abcd"%string
    /\ magnitude q = Num 4.5
    /\ depth q = Undefined.
Proof.
  destruct (normalize_preserves {| Raw.features := Some [sample_feature] |})
    as [_ H].
  destruct (H 0%nat sample_feature eq_refl)
    as (q & Hq & Hid & Hmag & _ & _ & _ & _ & _ & _ & Hdepth).
  exists q. split; [exact Hq|]. split; [exact Hid|]. split; [exact Hmag|].
  apply Hdepth. vm_compute. lia.
Defined.

(** A feed without [features] normalizes to the empty array. *)
Example normalize_absent : normalize {| Raw.features := None |} = [].
Proof. reflexivity. Qed.

(** ** Visual encoding: colour *)

Lemma colour_bounds_increasing :
  (fval 1 < fval 2 < fval 3)%Z /\ (fval 3 < fval 4 < fval 5)%Z.
Proof. repeat split; apply Z.ltb_lt; vm_compute; reflexivity. Qed.

(** Against a bound that is a number, [m >= k] fails exactly when [m < k]. *)
Lemma ge_cases (m k : float) :
  is_nan m = false -> is_nan k = false ->
  (ge m k = true /\ (m <? k)%float = false /\ (fval k <= fval m)%Z)
  \/ (ge m k = false /\ (m <? k)%float = true /\ (fval m < fval k)%Z).
Proof.
  intros Nm Nk. destruct (ge m k) eqn:G.
  - left. apply ge_true in G. destruct G as (_ & _ & G).
    repeat split; [|exact G]. apply ltb_false; assumption.
  - right. unfold ge in G. apply (leb_false k m Nk Nm) in G.
    repeat split; [|exact G]. apply ltb_true. auto.
Qed.

(** C5: the colour of a null magnitude is the gray token; on the numbers that
    are not NaN the encoder is the six-bucket table with inclusive lower bounds
    5, 4, 3, 2, 1 and the remainder below 1, one fixed token per bucket. *)
Theorem magToColor_buckets (m : float) :
  is_nan m = false ->
  magToColor Null = "#999"%string
  /\ magToColor Undefined = "#999"%string
  /\ (magToColor (Num m) = "#800026"%string <-> ge m 5 = true)
  /\ (magToColor (Num m) = "#BD0026"%string
      <-> ge m 4 = true /\ (m <? 5)%float = true)
  /\ (magToColor (Num m) = "#E31A1C"%string
      <-> ge m 3 = true /\ (m <? 4)%float = true)
  /\ (magToColor (Num m) = "#FC4E2A"%string
      <-> ge m 2 = true /\ (m <? 3)%float = true)
  /\ (magToColor (Num m) = "#FD8D3C"%string
      <-> ge m 1 = true /\ (m <? 2)%float = true)
  /\ (magToColor (Num m) = "#FED976"%string <-> (m <? 1)%float = true)
  /\ In (magToColor (Num m))
        ["#800026"; "#BD0026"; "#E31A1C"; "#FC4E2A"; "#FD8D3C"; "#FED976"]%string.
Proof.
  intros Nm. split; [reflexivity|]. split; [reflexivity|].
  destruct colour_bounds_increasing as [(B12 & B23) (B34 & B45)].
  cbn [magToColor].
  destruct (ge_cases m 5 Nm eq_refl) as [(-> & -> & G5) | (-> & -> & G5)];
  destruct (ge_cases m 4 Nm eq_refl) as [(-> & -> & G4) | (-> & -> & G4)];
  destruct (ge_cases m 3 Nm eq_refl) as [(-> & -> & G3) | (-> & -> & G3)];
  destruct (ge_cases m 2 Nm eq_refl) as [(-> & -> & G2) | (-> & -> & G2)];
  destruct (ge_cases m 1 Nm eq_refl) as [(-> & -> & G1) | (-> & -> & G1)];
  try lia;
  repeat split; try discriminate; try reflexivity;
  try (intros []; discriminate); cbn [In]; tauto.
Qed.

Lemma magToColor_buckets_witness :
  magToColor (Num 3.5) = "#E31A1C"%string.
Proof.
  destruct (magToColor_buckets 3.5 eq_refl) as (_ & _ & _ & _ & H & _).
  apply H. split; vm_compute; reflexivity.
Defined.

(** NaN is not on the real line: every comparison fails and the last token is
    returned. *)
Example magToColor_nan : magToColor (Num nan) = "#FED976"%string.
Proof. vm_compute; reflexivity. Qed.

(** ** Visual encoding: radius *)

Lemma Math_max_val (a b : float) :
  is_nan a = false -> is_nan b = false ->
  is_nan (Math_max a b) = false
  /\ fval (Math_max a b) = Z.max (fval a) (fval b).
Proof.
  intros Na Nb. unfold Math_max. rewrite Na, Nb. cbn [orb].
  destruct (a <? b)%float eqn:Lab.
  - apply ltb_true in Lab. split; [exact Nb | lia].
  - apply (ltb_false a b Na Nb) in Lab.
    destruct (b <? a)%float eqn:Lba.
    + apply ltb_true in Lba. split; [exact Na | lia].
    + apply (ltb_false b a Nb Na) in Lba.
      destruct (get_sign a); split; auto; lia.
Qed.

Lemma Math_max_nan (a b : float) :
  is_nan (Math_max a b) = (is_nan a || is_nan b)%bool.
Proof.
  destruct (is_nan a) eqn:Na; [unfold Math_max; now rewrite Na|].
  destruct (is_nan b) eqn:Nb; [unfold Math_max; now rewrite Na, Nb|].
  apply (Math_max_val a b Na Nb).
Qed.

Lemma div_nan_l (x y : float) : is_nan x = true -> is_nan (x / y) = true.
Proof.
  rewrite !is_nan_spec, FloatAxioms.div_spec.
  destruct (Prim2SF x); try discriminate. reflexivity.
Qed.

Lemma div_1_4_number (m : float) : is_nan m = false -> is_nan (m / 1.4) = false.
Proof.
  rewrite !is_nan_spec, FloatAxioms.div_spec. intros N.
  apply SFdiv_number; [exact N|].
  exists false, 6305039478318694%positive, (-52)%Z. reflexivity.
Qed.

Lemma Math_pow_nan (approx : float -> float -> float) (base e : float) :
  is_nan e = true -> is_nan (Math_pow approx base e) = true.
Proof. intros H. unfold Math_pow. rewrite H. reflexivity. Qed.

Lemma Math_pow_2_number (approx : float -> float -> float) (e : float) :
  (forall x, is_nan (approx 2%float x) = false) ->
  is_nan e = false -> is_nan (Math_pow approx 2 e) = false.
Proof.
  intros Ha Ne. unfold Math_pow. rewrite Ne.
  destruct (is_zero e); [reflexivity|].
  change (is_nan 2) with false. change (is_finite 2) with true.
  change (is_zero 2) with false. change (1 <? abs 2)%float with true.
  cbn [negb andb]. rewrite andb_true_r.
  destruct (is_infinity e); [destruct (get_sign e); reflexivity | apply Ha].
Qed.

(** [Math.max(4, .)] never goes below 4 and keeps the order of its argument. *)
Lemma Math_max_4_ge (p : float) :
  is_nan p = false -> ge (Math_max 4 p) 4 = true.
Proof.
  intros Np. destruct (Math_max_val 4 p eq_refl Np) as [N V].
  apply ge_true. repeat split; auto. lia.
Qed.

Lemma Math_max_4_mono (p1 p2 : float) :
  (p1 <=? p2)%float = true -> (Math_max 4 p1 <=? Math_max 4 p2)%float = true.
Proof.
  intros H. apply leb_true in H. destruct H as (N1 & N2 & H).
  destruct (Math_max_val 4 p1 eq_refl N1) as [M1 V1].
  destruct (Math_max_val 4 p2 eq_refl N2) as [M2 V2].
  apply leb_true. repeat split; auto. lia.
Qed.

(** *** Division by 1.4 keeps the order

    The quotient of a finite double by 1.4 is characterized from the
    specification of the division: the exact quotient is rounded to a nearest
    multiple of the spacing of the doubles around it. *)

Lemma binary_round_aux_finish m e l :
  binary_round_aux prec emax false m e l
  = let '(mrs, e1) := shr_fexp prec emax m e l in
    SFround_finish (round_nearest_even (shr_m mrs) (loc_of_shr_record mrs)) e1.
Proof. reflexivity. Qed.

Lemma digits2_le (p : positive) (k : Z) :
  (Z.pos p < 2 ^ k)%Z -> (Z.pos (digits2_pos p) <= k)%Z.
Proof.
  intros H. pose proof (digits2_lower p) as L.
  destruct (Z_le_gt_dec (Z.pos (digits2_pos p)) k) as [|G]; [assumption|].
  assert (2 ^ k <= 2 ^ (Z.pos (digits2_pos p) - 1))%Z.
  { apply Z.pow_le_mono_r; lia. }
  lia.
Qed.

Lemma digits2_ge (p : positive) (k : Z) :
  (2 ^ k <= Z.pos p)%Z -> (k < Z.pos (digits2_pos p))%Z.
Proof.
  intros H. pose proof (digits2_upper p) as U.
  destruct (Z_lt_le_dec k (Z.pos (digits2_pos p))) as [|G]; [assumption|].
  assert (2 ^ Z.pos (digits2_pos p) <= 2 ^ k)%Z.
  { apply Z.pow_le_mono_r; lia. }
  lia.
Qed.

Lemma SFround_finish_val (M E : Z) :
  (0 <= M <= 2 ^ 53)%Z -> (-1074 <= E <= 971)%Z ->
  (M = 2 ^ 53 -> E <= 970)%Z ->
  SFval (SFround_finish M E) = (M * 2 ^ (E + 1074))%Z.
Proof.
  intros HM HE HT. unfold SFround_finish, shr_fexp, fexp, shr.
  change (SpecFloat.emin prec emax) with (-1074)%Z.
  change prec with 53%Z. change emax with 1024%Z.
  cbn [shr_record_of_loc].
  destruct M as [|p|p]; [| |lia].
  - cbn [Zdigits2].
    destruct (Z.max (0 + E - 53) (-1074) - E)%Z eqn:N; try lia; reflexivity.
  - cbn [Zdigits2].
    destruct (Z.eq_dec (Z.pos p) (2 ^ 53)) as [Ep|Np].
    + specialize (HT Ep).
      assert (p = 9007199254740992%positive) as -> by (apply Pos2Z.inj; exact Ep).
      change (Z.pos (digits2_pos 9007199254740992)) with 54%Z.
      replace (Z.max (54 + E - 53) (-1074) - E)%Z with 1%Z by lia.
      cbn [iter_pos shr_1 shr_m].
      replace (E + 1 <=? 1024 - 53)%Z with true by (symmetry; apply Z.leb_le; lia).
      cbn [SFval cond_Zopp].
      replace (E + 1 + 1074)%Z with (1 + (E + 1074))%Z by lia.
      rewrite (Z.pow_add_r 2 1 (E + 1074)) by lia.
      change (2 ^ 1)%Z with 2%Z. change (Z.pos 9007199254740992) with (2 * 4503599627370496)%Z.
      ring.
    + assert (D : (Z.pos (digits2_pos p) <= 53)%Z) by (apply digits2_le; lia).
      destruct (Z.max (Z.pos (digits2_pos p) + E - 53) (-1074) - E)%Z eqn:N; try lia.
      * cbn [shr_m]. replace (E <=? 1024 - 53)%Z with true by (symmetry; apply Z.leb_le; lia).
        reflexivity.
      * cbn [shr_m]. replace (E <=? 1024 - 53)%Z with true by (symmetry; apply Z.leb_le; lia).
        reflexivity.
Qed.

Lemma Prim2SF_1_4 : Prim2SF 1.4 = S754_finite false c14 (-52).
Proof. reflexivity. Qed.

Lemma loc_of_record_of_loc m l : loc_of_shr_record (shr_record_of_loc m l) = l.
Proof. destruct l as [|[]]; reflexivity. Qed.

Lemma shr_m_record_of_loc m l : shr_m (shr_record_of_loc m l) = m.
Proof. destruct l as [|[]]; reflexivity. Qed.

Lemma shr_fexp_noshift q e l :
  (0 <= q < 2 ^ 53)%Z -> (-1074 <= e)%Z ->
  shr_fexp prec emax q e l = (shr_record_of_loc q l, e).
Proof.
  intros Hq He. unfold shr_fexp, fexp, shr.
  change (SpecFloat.emin prec emax) with (-1074)%Z. change prec with 53%Z.
  assert (D : (Zdigits2 q <= 53)%Z).
  { destruct q as [|p|p]; cbn [Zdigits2]; [lia | apply digits2_le; lia | lia]. }
  destruct (Z.max (Zdigits2 q + e - 53) (-1074) - e)%Z eqn:N; try lia; reflexivity.
Qed.

Lemma shr_fexp_shift1 q e l :
  (2 ^ 53 <= q < 2 ^ 54)%Z -> (-1074 <= e)%Z ->
  shr_fexp prec emax q e l = (shr_1 (shr_record_of_loc q l), (e + 1)%Z).
Proof.
  intros Hq He. unfold shr_fexp, fexp, shr.
  change (SpecFloat.emin prec emax) with (-1074)%Z. change prec with 53%Z.
  destruct q as [|p|p]; try lia. cbn [Zdigits2].
  assert (D : (Z.pos (digits2_pos p) = 54)%Z).
  { pose proof (digits2_le p 54 ltac:(lia)). pose proof (digits2_ge p 53 ltac:(lia)). lia. }
  rewrite D. replace (Z.max (54 + e - 53) (-1074) - e)%Z with 1%Z by lia.
  reflexivity.
Qed.

(** Nearest integer, without and with one halving. *)
Lemma round_nearest_even_near (q r D : Z) :
  (0 <= r < D)%Z ->
  let M := round_nearest_even q (new_location_even D r) in
  (q <= M <= q + 1)%Z /\ (2 * Z.abs (M * D - (q * D + r)) <= D)%Z.
Proof.
  intros Hr. cbv zeta. unfold new_location_even, round_nearest_even.
  destruct (Z.eqb_spec r 0) as [->|Nr].
  - split; lia.
  - destruct (Z.compare_spec (2 * r) D) as [E|L|G];
      try destruct (Z.even q); split; lia.
Qed.

Lemma round_nearest_even_halved (q r D : Z) :
  (0 < q)%Z -> (0 <= r < D)%Z ->
  let mrs := shr_1 (shr_record_of_loc q (new_location_even D r)) in
  let M := round_nearest_even (shr_m mrs) (loc_of_shr_record mrs) in
  (2 * M <= q + 2)%Z /\ (q <= 2 * M + 1)%Z
  /\ (Z.abs (M * (2 * D) - (q * D + r)) <= D)%Z.
Proof.
  intros Hq Hr. cbv zeta. unfold new_location_even.
  destruct q as [|p|p]; try lia.
  destruct (Z.eqb_spec r 0) as [->|Nr].
  - destruct p as [p|p|]; cbn [shr_record_of_loc shr_1 shr_m loc_of_shr_record orb
                               round_nearest_even].
    + change (Z.pos p~1) with (2 * Z.pos p + 1)%Z.
      destruct (Z.even (Z.pos p)); repeat split; try lia.
    + change (Z.pos p~0) with (2 * Z.pos p)%Z. repeat split; try lia.
    + cbn [Z.even]. repeat split; lia.
  - destruct (Z.compare_spec (2 * r) D) as [E|L|G];
      destruct p as [p|p|]; cbn [shr_record_of_loc shr_1 shr_m loc_of_shr_record orb
                                 round_nearest_even];
      try change (Z.pos p~1) with (2 * Z.pos p + 1)%Z;
      try change (Z.pos p~0) with (2 * Z.pos p)%Z;
      cbn [Z.even]; try destruct (Z.even (Z.pos p));
      repeat split; lia.
Qed.

Lemma pow2_double (a b : Z) :
  (-1074 <= a < b)%Z -> (2 * 2 ^ (a + 1074) <= 2 ^ (b + 1074))%Z.
Proof.
  intros H. rewrite <- Z.pow_succ_r by lia.
  apply Z.pow_le_mono_r; lia.
Qed.

Lemma div14_rounds_monotone (V1 W1 V2 W2 : Z) :
  div14_rounds V1 W1 -> div14_rounds V2 W2 -> (V1 < V2)%Z -> (W1 <= W2)%Z.
Proof.
  intros (E1 & M1 & N1 & HE1 & HM1 & -> & HV1 & HN1 & HC1 & HD1)
         (E2 & M2 & N2 & HE2 & HM2 & -> & HV2 & HN2 & HC2 & HD2) HV.
  assert (P1 : (0 < 2 ^ (E1 + 1074))%Z) by (apply Z.pow_pos_nonneg; lia).
  assert (P2 : (0 < 2 ^ (E2 + 1074))%Z) by (apply Z.pow_pos_nonneg; lia).
  assert (HL : (N1 * 2 ^ (E1 + 1074) < N2 * 2 ^ (E2 + 1074))%Z) by lia.
  unfold c14 in *.
  destruct (Z.lt_trichotomy E1 E2) as [L | [-> | G]].
  - pose proof (pow2_double E1 E2 ltac:(lia)) as HG.
    specialize (HD2 ltac:(lia)).
    assert (B1 : (M1 <= 2 ^ 53)%Z) by lia.
    assert (B2 : (2 ^ 52 <= M2)%Z) by lia.
    apply Z.le_trans with (2 ^ 53 * 2 ^ (E1 + 1074))%Z.
    + apply Z.mul_le_mono_nonneg_r; lia.
    + apply Z.le_trans with (2 ^ 52 * 2 ^ (E2 + 1074))%Z.
      * change (2 ^ 53)%Z with (2 ^ 52 * 2)%Z. rewrite <- Z.mul_assoc.
        apply Z.mul_le_mono_nonneg_l; lia.
      * apply Z.mul_le_mono_nonneg_r; lia.
  - assert (N1 < N2)%Z by (eapply Z.mul_lt_mono_pos_r; eauto).
    apply Z.mul_le_mono_nonneg_r; lia.
  - exfalso.
    pose proof (pow2_double E2 E1 ltac:(lia)) as HG.
    specialize (HD1 ltac:(lia)).
    assert (N2 * 2 ^ (E2 + 1074) <= (2 ^ 52 * 6305039478318694) * (2 * 2 ^ (E2 + 1074)))%Z.
    { change (2 ^ 53)%Z with (2 ^ 52 * 2)%Z in HC2.
      replace ((2 ^ 52 * 6305039478318694) * (2 * 2 ^ (E2 + 1074)))%Z
        with ((2 ^ 52 * 2 * 6305039478318694) * 2 ^ (E2 + 1074))%Z by ring.
      apply Z.mul_le_mono_nonneg_r; lia. }
    assert ((2 ^ 52 * 6305039478318694) * (2 * 2 ^ (E2 + 1074))
            <= N1 * 2 ^ (E1 + 1074))%Z.
    { apply Z.mul_le_mono_nonneg; lia. }
    lia.
Qed.

Lemma valid_finite_digits s m e :
  valid_binary (S754_finite s m e) = true ->
  (Z.max (Z.pos (digits2_pos m) + e - 53) (-1074) = e)%Z.
Proof.
  cbn [SpecFloat.valid_binary]. unfold bounded, canonical_mantissa, fexp.
  change (SpecFloat.emin prec emax) with (-1074)%Z. change prec with 53%Z.
  intros H. apply andb_true_iff in H. destruct H as [H _]. now apply Z.eqb_eq in H.
Qed.

Lemma div_eucl_c14 (n : Z) :
  (0 <= n)%Z ->
  exists q r : Z,
    Z.div_eucl n (Z.pos c14) = (q, r)
    /\ n = (q * Z.pos c14 + r)%Z /\ (0 <= r < Z.pos c14)%Z /\ (0 <= q)%Z.
Proof.
  intros Hn.
  pose proof (Z.div_eucl_eq n (Z.pos c14) ltac:(lia)) as E.
  pose proof (Z.mod_pos_bound n (Z.pos c14) ltac:(lia)) as B.
  unfold Z.modulo in B.
  destruct (Z.div_eucl n (Z.pos c14)) as [q r]. exists q, r.
  split; [reflexivity|]. split; [lia|]. split; [lia|]. unfold c14 in *. nia.
Qed.

Lemma SFdiv14_core_low (m : positive) :
  (Z.pos (digits2_pos m) <= 53)%Z ->
  SFdiv_core_binary prec emax (Z.pos m) (-1074) (Z.pos c14) (-52)
  = let '(q, r) := Z.div_eucl (Z.pos m * 2 ^ 52) (Z.pos c14) in
    (q, (-1074)%Z, new_location_even (Z.pos c14) r).
Proof.
  intros D. unfold SFdiv_core_binary. cbn [Zdigits2].
  change (Z.pos (digits2_pos c14)) with 53%Z. unfold fexp.
  change (SpecFloat.emin prec emax) with (-1074)%Z. change prec with 53%Z.
  replace (Z.min (Z.max (Z.pos (digits2_pos m) + -1074 - (53 + -52) - 53) (-1074))
                 (-1074 - -52))%Z with (-1074)%Z by lia.
  change (-1074 - -52 - -1074)%Z with 52%Z. cbv iota.
  rewrite Z.shiftl_mul_pow2 by lia.
  destruct (Z.div_eucl _ _) as [q r]. reflexivity.
Qed.

Lemma SFdiv14_core_high (m : positive) (e : Z) :
  (Z.pos (digits2_pos m) = 53)%Z -> (-1074 < e)%Z ->
  SFdiv_core_binary prec emax (Z.pos m) e (Z.pos c14) (-52)
  = let '(q, r) := Z.div_eucl (Z.pos m * 2 ^ 53) (Z.pos c14) in
    (q, (e - 1)%Z, new_location_even (Z.pos c14) r).
Proof.
  intros D He. unfold SFdiv_core_binary. cbn [Zdigits2].
  change (Z.pos (digits2_pos c14)) with 53%Z. unfold fexp.
  change (SpecFloat.emin prec emax) with (-1074)%Z. change prec with 53%Z.
  rewrite D.
  replace (Z.min (Z.max (53 + e - (53 + -52) - 53) (-1074)) (e - -52))%Z
    with (e - 1)%Z by lia.
  replace (e - -52 - (e - 1))%Z with 53%Z by lia. cbv iota.
  rewrite Z.shiftl_mul_pow2 by lia.
  destruct (Z.div_eucl _ _) as [q r]. reflexivity.
Qed.

Lemma SFdiv14_rounds (m : positive) (e : Z) :
  valid_binary (S754_finite false m e) = true ->
  div14_rounds (Z.pos m * 2 ^ (e + 1074))
               (SFval (SF64div (S754_finite false m e) (S754_finite false c14 (-52)))).
Proof.
  intros V. pose proof (valid_finite_digits _ _ _ V) as Hd.
  pose proof (valid_finite _ _ _ V) as (He & Hm & Hn).
  unfold SF64div. cbn [SFdiv xorb].
  destruct (Z.eq_dec e (-1074)) as [->|Ne].
  - (* the lowest exponent: the quotient is rounded at the spacing 2^-1074 *)
    rewrite SFdiv14_core_low by lia.
    destruct (div_eucl_c14 (Z.pos m * 2 ^ 52) ltac:(lia)) as (q & r & -> & Eq & Hr & Hq).
    rewrite binary_round_aux_finish.
    assert (Q : (q < 2 ^ 53)%Z) by (unfold c14 in *; lia).
    rewrite shr_fexp_noshift by lia.
    rewrite shr_m_record_of_loc, loc_of_record_of_loc.
    destruct (round_nearest_even_near q r (Z.pos c14) Hr) as [HM HN].
    set (M := round_nearest_even q (new_location_even (Z.pos c14) r)) in *.
    assert (T : (M < 2 ^ 53)%Z) by (unfold c14 in *; lia).
    rewrite SFround_finish_val by lia.
    exists (-1074)%Z, M, (Z.pos m * 2 ^ 52)%Z.
    change (-1074 + 1074)%Z with 0%Z. change (2 ^ 0)%Z with 1%Z.
    split; [lia|]. split; [lia|]. split; [ring|]. split; [ring|].
    split; [rewrite Eq; exact HN|].
    split; [unfold c14 in *; lia | lia].
  - (* a normal dividend: the quotient has 53 or 54 digits *)
    assert (D : (Z.pos (digits2_pos m) = 53)%Z) by lia.
    specialize (Hn ltac:(lia)).
    rewrite SFdiv14_core_high by lia.
    destruct (div_eucl_c14 (Z.pos m * 2 ^ 53) ltac:(lia)) as (q & r & -> & Eq & Hr & Hq).
    rewrite binary_round_aux_finish.
    assert (Q : (2 ^ 52 <= q < 2 ^ 54)%Z) by (unfold c14 in *; lia).
    assert (P : (0 < 2 ^ (e - 1 + 1074))%Z) by (apply Z.pow_pos_nonneg; lia).
    assert (S2 : (2 ^ (e + 1074) = 2 * 2 ^ (e - 1 + 1074))%Z).
    { rewrite <- Z.pow_succ_r by lia. f_equal. lia. }
    destruct (Z_lt_le_dec q (2 ^ 53)) as [Lq|Gq].
    + rewrite shr_fexp_noshift by lia.
      rewrite shr_m_record_of_loc, loc_of_record_of_loc.
      destruct (round_nearest_even_near q r (Z.pos c14) Hr) as [HM HN].
      set (M := round_nearest_even q (new_location_even (Z.pos c14) r)) in *.
      rewrite SFround_finish_val by lia.
      exists (e - 1)%Z, M, (Z.pos m * 2 ^ 53)%Z.
      split; [lia|]. split; [lia|]. split; [reflexivity|]. split.
      { rewrite S2. change (2 ^ 53)%Z with (2 * 2 ^ 52)%Z. ring. }
      split; [rewrite Eq; exact HN|].
      split; [unfold c14 in *; lia|]. intros _. unfold c14 in *. lia.
    + rewrite shr_fexp_shift1 by lia.
      destruct (round_nearest_even_halved q r (Z.pos c14) ltac:(lia) Hr) as (H1 & H2 & HN).
      set (mrs := shr_1 (shr_record_of_loc q (new_location_even (Z.pos c14) r))) in *.
      set (M := round_nearest_even (shr_m mrs) (loc_of_shr_record mrs)) in *.
      assert (T : (0 <= M < 2 ^ 53)%Z) by (unfold c14 in *; lia).
      replace (e - 1 + 1)%Z with e by lia.
      rewrite SFround_finish_val by lia.
      exists e, M, (Z.pos m * 2 ^ 52)%Z.
      split; [lia|]. split; [lia|]. split; [reflexivity|]. split; [ring|].
      split; [|split; [unfold c14 in *; lia|intros _; unfold c14 in *; lia]].
      unfold c14 in *. change (2 ^ 53)%Z with (2 * 2 ^ 52)%Z in Eq. lia.
Qed.

Lemma binary_round_aux_val_sign s m e l :
  SFval (binary_round_aux prec emax s m e l)
  = cond_Zopp s (SFval (binary_round_aux prec emax false m e l)).
Proof.
  unfold binary_round_aux.
  destruct (shr_fexp prec emax m e l) as [mrs1 e1].
  destruct (shr_fexp prec emax _ e1 loc_Exact) as [mrs2 e2].
  destruct (shr_m mrs2); [destruct s; reflexivity | | destruct s; reflexivity].
  destruct (Z.leb e2 _); reflexivity.
Qed.

Lemma SFdiv14_val_sign s m e :
  SFval (SF64div (S754_finite s m e) (S754_finite false c14 (-52)))
  = cond_Zopp s (SFval (SF64div (S754_finite false m e) (S754_finite false c14 (-52)))).
Proof.
  unfold SF64div. cbn [SFdiv].
  destruct (SFdiv_core_binary prec emax (Z.pos m) e (Z.pos c14) (-52)) as [[q e'] l].
  rewrite xorb_false_r. cbn [xorb]. apply binary_round_aux_val_sign.
Qed.

Lemma SFval_bound x :
  valid_binary x = true -> (- 2 ^ 2100 <= SFval x <= 2 ^ 2100)%Z.
Proof.
  intros V. destruct x as [s|s| |s m e]; cbn [SFval].
  - lia.
  - destruct s; cbn [cond_Zopp]; lia.
  - lia.
  - pose proof (finite_val_bound s m e V). destruct s; cbn [cond_Zopp]; lia.
Qed.

Lemma valid_finite_inj m1 e1 m2 e2 :
  valid_binary (S754_finite false m1 e1) = true ->
  valid_binary (S754_finite false m2 e2) = true ->
  (Z.pos m1 * 2 ^ (e1 + 1074) = Z.pos m2 * 2 ^ (e2 + 1074))%Z ->
  m1 = m2 /\ e1 = e2.
Proof.
  intros V1 V2 E. pose proof (mag_compare m1 e1 m2 e2 V1 V2) as C.
  rewrite E, Z.compare_refl in C.
  destruct (Z.compare_spec e1 e2) as [->|L|G]; try discriminate.
  split; [|reflexivity]. now apply Pos.compare_eq.
Qed.

Lemma div14_rounds_nonneg V W : div14_rounds V W -> (0 <= W)%Z.
Proof.
  intros (E & M & N & HE & HM & -> & _).
  apply Z.mul_nonneg_nonneg; [lia | apply Z.pow_nonneg; lia].
Qed.

(** Division by 1.4 keeps the order of the doubles. *)
Lemma SFdiv14_monotone x y :
  valid_binary x = true -> valid_binary y = true ->
  SFis_nan x = false -> SFis_nan y = false ->
  (SFval x <= SFval y)%Z ->
  (- 2 ^ 2100 <= SFval (SF64div x (S754_finite false c14 (-52))) <= 2 ^ 2100)%Z ->
  (- 2 ^ 2100 <= SFval (SF64div y (S754_finite false c14 (-52))) <= 2 ^ 2100)%Z ->
  (SFval (SF64div x (S754_finite false c14 (-52)))
   <= SFval (SF64div y (S754_finite false c14 (-52))))%Z.
Proof.
  intros Vx Vy Nx Ny H Bx By.
  destruct x as [sx|sx| |sx mx ex]; try discriminate;
  destruct y as [sy|sy| |sy my ey]; try discriminate.
  all: try rewrite (SFdiv14_val_sign sx mx ex) in *.
  all: try rewrite (SFdiv14_val_sign sy my ey) in *.
  all: try (pose proof (SFdiv14_rounds mx ex Vx) as Rx;
            pose proof (div14_rounds_nonneg _ _ Rx) as Px;
            pose proof (finite_val_bound sx mx ex Vx) as Fx).
  all: try (pose proof (SFdiv14_rounds my ey Vy) as Ry;
            pose proof (div14_rounds_nonneg _ _ Ry) as Py;
            pose proof (finite_val_bound sy my ey Vy) as Fy).
  all: cbn [SFval SF64div SFdiv xorb] in *.
  all: try destruct sx; try destruct sy; cbn [cond_Zopp xorb SFval] in *; try lia.
  - (* both negative *)
    destruct (Z.eq_dec (Z.pos mx * 2 ^ (ex + 1074)) (Z.pos my * 2 ^ (ey + 1074))) as [E|N].
    + destruct (valid_finite_inj mx ex my ey Vx Vy E) as [-> ->]. lia.
    + pose proof (div14_rounds_monotone _ _ _ _ Ry Rx ltac:(lia)). lia.
  - (* both positive *)
    destruct (Z.eq_dec (Z.pos mx * 2 ^ (ex + 1074)) (Z.pos my * 2 ^ (ey + 1074))) as [E|N].
    + destruct (valid_finite_inj mx ex my ey Vx Vy E) as [-> ->]. lia.
    + pose proof (div14_rounds_monotone _ _ _ _ Rx Ry ltac:(lia)). lia.
Qed.

Lemma div_1_4_monotone (x y : float) :
  (x <=? y)%float = true -> (x / 1.4 <=? y / 1.4)%float = true.
Proof.
  intros H. apply leb_true in H. destruct H as (Nx & Ny & H).
  apply leb_true. split; [now apply div_1_4_number|]. split; [now apply div_1_4_number|].
  pose proof (SFval_bound _ (Prim2SF_valid (x / 1.4))) as Bx.
  pose proof (SFval_bound _ (Prim2SF_valid (y / 1.4))) as By.
  unfold fval in *. rewrite !FloatAxioms.div_spec in *.
  rewrite Prim2SF_1_4 in *.
  rewrite is_nan_spec in Nx, Ny.
  apply SFdiv14_monotone; try apply Prim2SF_valid; auto; lia.
Qed.

(** *** The power of 2 *)

Lemma SFabs_val x : SFval (SFabs x) = Z.abs (SFval x).
Proof.
  destruct x as [s|s| |s m e]; cbn [SFabs SFval cond_Zopp]; try reflexivity.
  - destruct s; cbn [cond_Zopp]; [rewrite Z.abs_opp|]; symmetry; apply Z.abs_eq; lia.
  - assert (0 <= Z.pos m * 2 ^ (e + 1074))%Z.
    { destruct (Z_lt_le_dec (e + 1074) 0).
      - rewrite Z.pow_neg_r by lia. lia.
      - apply Z.mul_nonneg_nonneg; [lia | apply Z.pow_nonneg; lia]. }
    destruct s; cbn [cond_Zopp]; [rewrite Z.abs_opp|]; symmetry; apply Z.abs_eq; lia.
Qed.

Lemma abs_val (x : float) :
  is_nan (abs x) = is_nan x /\ fval (abs x) = Z.abs (fval x).
Proof.
  rewrite !is_nan_spec. unfold fval. rewrite FloatAxioms.abs_spec.
  split; [destruct (Prim2SF x); reflexivity | apply SFabs_val].
Qed.

Lemma eqb_false_val x y :
  is_nan x = false -> is_nan y = false ->
  (x =? y)%float = false -> fval x <> fval y.
Proof.
  intros Nx Ny H E. assert (T : (x =? y)%float = true) by (apply eqb_true; auto).
  congruence.
Qed.

Lemma fval_bound (x : float) : (- 2 ^ 2100 <= fval x <= 2 ^ 2100)%Z.
Proof. apply SFval_bound, Prim2SF_valid. Qed.

(** [Math.pow(2, e)] case by case on the exponent. *)
Lemma Math_pow_2_cases (approx : float -> float -> float) (e : float) :
  is_nan e = false ->
  (fval e = 0%Z /\ Math_pow approx 2 e = 1%float)
  \/ (fval e = (- 2 ^ 2100)%Z /\ Math_pow approx 2 e = 0%float)
  \/ (fval e = (2 ^ 2100)%Z /\ Math_pow approx 2 e = infinity)
  \/ ((- 2 ^ 2100 < fval e < 2 ^ 2100)%Z /\ fval e <> 0%Z
      /\ Math_pow approx 2 e = approx 2%float e).
Proof.
  intros Ne. unfold Math_pow. rewrite Ne.
  pose proof (fval_bound e) as B.
  destruct (is_zero e) eqn:Z0; unfold is_zero in Z0.
  { left. apply eqb_true in Z0. destruct Z0 as (_ & _ & Z0). split; [exact Z0 | reflexivity]. }
  right. apply (eqb_false_val e zero Ne eq_refl) in Z0. change (fval zero) with 0%Z in Z0.
  change (is_nan 2) with false. change (is_finite 2) with true.
  change (is_zero 2) with false. change (1 <? abs 2)%float with true.
  cbn [negb andb]. rewrite andb_true_r.
  destruct (abs_val e) as [Na Va].
  unfold is_infinity. destruct (abs e =? infinity)%float eqn:I.
  - apply eqb_true in I. destruct I as (_ & _ & I). rewrite Va in I.
    change (fval infinity) with (2 ^ 2100)%Z in I.
    unfold get_sign.
    destruct (is_zero e) eqn:Z1; unfold is_zero in Z1.
    { apply eqb_true in Z1. destruct Z1 as (_ & _ & Z1). change (fval zero) with 0%Z in Z1. lia. }
    destruct (e <? zero)%float eqn:S.
    + left. apply ltb_true in S. change (fval zero) with 0%Z in S. split; [lia | reflexivity].
    + right. left. apply (ltb_false e zero Ne eq_refl) in S. change (fval zero) with 0%Z in S.
      split; [lia | reflexivity].
  - right. right. rewrite <- Na in Ne.
    apply (eqb_false_val (abs e) infinity Ne eq_refl) in I.
    rewrite Va in I. change (fval infinity) with (2 ^ 2100)%Z in I.
    split; [lia|]. split; [exact Z0 | reflexivity].
Qed.

Lemma leb_refl (x : float) : is_nan x = false -> (x <=? x)%float = true.
Proof. intros N. apply leb_true. repeat split; auto. lia. Qed.

Lemma staircase_pow_cases (e : float) :
  is_nan e = false ->
  ((fval e < fval 2)%Z /\ staircase_pow 2 e = 1%float)
  \/ ((fval 2 <= fval e < fval 4)%Z /\ staircase_pow 2 e = 4%float)
  \/ ((fval 4 <= fval e)%Z /\ staircase_pow 2 e = 16%float).
Proof.
  intros Ne. unfold staircase_pow.
  destruct (e <? 2)%float eqn:L2.
  { left. apply ltb_true in L2. split; [lia | reflexivity]. }
  apply (ltb_false e 2 Ne eq_refl) in L2. right.
  destruct (e <? 4)%float eqn:L4.
  - left. apply ltb_true in L4. split; [lia | reflexivity].
  - right. apply (ltb_false e 4 Ne eq_refl) in L4. split; [lia | reflexivity].
Qed.

Lemma staircase_pow_monotone (e1 e2 : float) :
  (e1 <=? e2)%float = true ->
  (Math_pow staircase_pow 2 e1 <=? Math_pow staircase_pow 2 e2)%float = true.
Proof.
  intros H. apply leb_true in H. destruct H as (N1 & N2 & H).
  assert (C : (0 < fval 2 < fval 4)%Z /\ (fval 4 < 2 ^ 2100)%Z)
    by (repeat split; apply Z.ltb_lt; vm_compute; reflexivity).
  destruct C as [[C0 C1] C2].
  destruct (Math_pow_2_cases staircase_pow e1 N1)
    as [[Z1 ->] | [[Z1 ->] | [[Z1 ->] | (B1 & Z1 & ->)]]];
  destruct (Math_pow_2_cases staircase_pow e2 N2)
    as [[Z2 ->] | [[Z2 ->] | [[Z2 ->] | (B2 & Z2 & ->)]]];
  try (destruct (staircase_pow_cases e1 N1) as [[S1 ->] | [[S1 ->] | [S1 ->]]]);
  try (destruct (staircase_pow_cases e2 N2) as [[S2 ->] | [[S2 ->] | [S2 ->]]]);
  first [reflexivity | exfalso; lia].
Qed.

(** The radius of a NaN magnitude is NaN; no marker has one, since a filtered
    set holds no NaN magnitude. *)
Example magToRadius_nan (approx : float -> float -> float) :
  is_nan (magToRadius approx (Num nan)) = true.
Proof.
  cbn [magToRadius]. rewrite Math_max_nan.
  rewrite (Math_pow_nan approx 2 _ (div_nan_l nan 1.4 eq_refl)). reflexivity.
Qed.



Example staircase_samples :
  magToRadius staircase_pow (Num 2.8) = 4%float
  /\ magToRadius staircase_pow (Num 5.6) = 16%float
  /\ magToRadius staircase_pow (Num (-1)) = 4%float.
Proof. vm_compute. repeat split. Qed.

Example magToRadius_samples :
  magToRadius sample_pow (Num 2.8) = 4%float
  /\ magToRadius sample_pow (Num 5.6) = 16%float
  /\ magToRadius sample_pow (Num 0) = 4%float
  /\ magToRadius sample_pow (Num neg_infinity) = 4%float
  /\ magToRadius sample_pow (Num infinity) = infinity.
Proof. vm_compute. repeat split. Qed.

(** ** The list view *)

(** The comparator keeps [x] in front of [y] unless [y] has the strictly larger
    magnitude; this holds for all numbers, infinities and NaN included. *)
Lemma SortCompare_by_magnitude (x y : Quake) :
  (Array.SortCompare by_magnitude_desc x y <=? 0)%float
  = negb (coalesce (magnitude x) 0 <? coalesce (magnitude y) 0)%float.
Proof.
  unfold Array.SortCompare, by_magnitude_desc.
  set (kx := coalesce (magnitude x) 0). set (ky := coalesce (magnitude y) 0).
  rewrite <- (sub_sign kx ky).
  destruct (is_nan (ky - kx)) eqn:Nv.
  - rewrite (ltb_val 0 (ky - kx)), Nv. reflexivity.
  - rewrite (leb_val (ky - kx) 0), (ltb_val 0 (ky - kx)), Nv.
    change (is_nan 0) with false. cbn [negb andb].
    apply Z.leb_antisym.
Qed.

(** On records that compare as numbers the comparator is consistent: it calls
    every record equal to itself and what it orders it orders transitively, so
    the sorted order does not depend on the engine's algorithm. *)
Lemma comparator_reflexive (x : Quake) :
  (Array.SortCompare by_magnitude_desc x x <=? 0)%float = true.
Proof.
  rewrite SortCompare_by_magnitude.
  destruct (coalesce (magnitude x) 0 <? coalesce (magnitude x) 0)%float eqn:L;
    [|reflexivity].
  apply ltb_true in L. lia.
Qed.

Lemma comparator_transitive (x y z : Quake) :
  comparable y ->
  (Array.SortCompare by_magnitude_desc x y <=? 0)%float = true ->
  (Array.SortCompare by_magnitude_desc y z <=? 0)%float = true ->
  (Array.SortCompare by_magnitude_desc x z <=? 0)%float = true.
Proof.
  unfold comparable, sort_key. rewrite !SortCompare_by_magnitude, !negb_true_iff.
  set (kx := coalesce (magnitude x) 0). set (ky := coalesce (magnitude y) 0).
  set (kz := coalesce (magnitude z) 0). intros Ny Hxy Hyz.
  destruct (kx <? kz)%float eqn:L; [|reflexivity].
  apply ltb_true in L. destruct L as (Nx & Nz & L).
  apply (ltb_false _ _ Nx Ny) in Hxy. apply (ltb_false _ _ Ny Nz) in Hyz. lia.
Qed.

Lemma insert_test (x y : Quake) :
  comparable x -> comparable y ->
  (Array.SortCompare by_magnitude_desc x y <=? 0)%float = true /\ descending x y
  \/ (Array.SortCompare by_magnitude_desc x y <=? 0)%float = false /\ descending y x.
Proof.
  intros Nx Ny. rewrite SortCompare_by_magnitude. fold (sort_key x) (sort_key y).
  unfold descending. destruct (sort_key x <? sort_key y)%float eqn:L; cbn [negb].
  - right. split; [reflexivity|]. apply ltb_true in L. apply ge_true.
    intuition lia.
  - left. split; [reflexivity|]. apply (ltb_false _ _ Nx Ny) in L.
    apply ge_true. auto.
Qed.

Lemma insert_HdRel (x y : Quake) (l : list Quake) :
  descending y x -> HdRel descending y l ->
  HdRel descending y (Array.insert by_magnitude_desc x l).
Proof.
  intros Hyx Hl. destruct l as [|z l]; cbn [Array.insert].
  - now constructor.
  - inversion Hl; subst.
    destruct (Array.SortCompare by_magnitude_desc x z <=? 0)%float;
      now constructor.
Qed.

Lemma insert_Sorted (x : Quake) (l : list Quake) :
  comparable x -> Forall comparable l -> Sorted descending l ->
  Sorted descending (Array.insert by_magnitude_desc x l).
Proof.
  intros Nx Nl Sl. induction l as [|y l IH]; cbn [Array.insert].
  - repeat constructor.
  - inversion Nl as [|? ? Ny Nl']; subst. inversion Sl as [|? ? Sl' Hy]; subst.
    destruct (insert_test x y Nx Ny) as [[-> Hxy] | [-> Hyx]].
    + constructor; [exact Sl | now constructor].
    + constructor; [now apply IH | now apply insert_HdRel].
Qed.

Lemma insert_Permutation (x : Quake) (l : list Quake) :
  Permutation (Array.insert by_magnitude_desc x l) (x :: l).
Proof.
  induction l as [|y l IH]; cbn [Array.insert]; [reflexivity|].
  destruct (Array.SortCompare by_magnitude_desc x y <=? 0)%float; [reflexivity|].
  rewrite IH. apply perm_swap.
Qed.

Lemma sort_Permutation (l : list Quake) :
  Permutation (Array.sort by_magnitude_desc l) l.
Proof.
  induction l as [|x l IH]; cbn; [reflexivity|].
  fold (Array.sort by_magnitude_desc l).
  rewrite insert_Permutation. now constructor.
Qed.

Lemma sort_Sorted (l : list Quake) :
  Forall comparable l -> Sorted descending (Array.sort by_magnitude_desc l).
Proof.
  intros Nl. induction l as [|x l IH]; cbn; [constructor|].
  fold (Array.sort by_magnitude_desc l).
  inversion Nl as [|? ? Nx Nl']; subst.
  apply insert_Sorted; [exact Nx | | now apply IH].
  eapply Permutation_Forall; [|exact Nl'].
  symmetry. apply sort_Permutation.
Qed.

(** Every record of a filtered view compares as a number: NaN never passes the
    threshold test. *)
Lemma filtered_numbers (data : list Quake) (t : float) :
  Forall comparable (filtered data t).
Proof.
  apply Forall_forall. intros q Hq. rewrite filtered_eq in Hq.
  apply filter_In in Hq. destruct Hq as [_ Hp].
  apply ge_true in Hp. apply Hp.
Qed.

Lemma list_order_Sorted (data : list Quake) (t : float) :
  Sorted descending (list_order (filtered data t)).
Proof. apply sort_Sorted, filtered_numbers. Qed.

Lemma Sorted_adjacent {A : Type} (R : A -> A -> Prop) (l : list A) :
  Sorted R l ->
  forall (i : nat) (a b : A),
    nth_error l i = Some a -> nth_error l (S i) = Some b -> R a b.
Proof.
  induction 1 as [|x l Sl IH Hx]; intros i a b Ha Hb.
  - destruct i; discriminate.
  - destruct i as [|i].
    + cbn in Ha, Hb. inversion Ha; subst. destruct l as [|y l]; [discriminate|].
      cbn in Hb. inversion Hb; subst. now inversion Hx.
    + exact (IH i a b Ha Hb).
Qed.

Lemma list_rows_nth (shown : list Quake) (i : nat) (q : Quake) :
  nth_error (list_order shown) i = Some q ->
  nth_error (list_rows shown) i = Some (list_row q).
Proof. intros H. unfold list_rows, Array.map. now apply map_nth_error. Qed.

(** C6: the list view of a filtered set is ordered by magnitude descending,
    null read as 0 for the comparison only: every adjacent pair [(a, b)] has
    [(a.magnitude ?? 0) >= (b.magnitude ?? 0)], the rows are the records of the
    filtered set themselves, and the i-th row prints the magnitude of the i-th
    record as normalized: the number itself for a number, a dash (not 0) for a
    null or missing one. *)
Theorem list_order_descending (data : list Quake) (t : float) :
  (forall (i : nat) (a b : Quake),
     nth_error (list_order (filtered data t)) i = Some a ->
     nth_error (list_order (filtered data t)) (S i) = Some b ->
     ge (coalesce (magnitude a) 0) (coalesce (magnitude b) 0) = true)
  /\ Permutation (list_order (filtered data t)) (filtered data t)
  /\ (forall (i : nat) (q : Quake),
        nth_error (list_order (filtered data t)) i = Some q ->
        exists row : Row,
          nth_error (list_rows (filtered data t)) i = Some row
          /\ row_key row = id q
          /\ (forall x : float,
                magnitude q = Num x -> row_magnitude row = Number x)
          /\ (loosely_null (magnitude q) = true -> row_magnitude row = Dash)).
Proof.
  split; [|split].
  - apply (Sorted_adjacent descending _ (list_order_Sorted data t)).
  - apply sort_Permutation.
  - intros i q Hq. exists (list_row q).
    split; [now apply list_rows_nth|]. split; [reflexivity|].
    cbn [row_magnitude list_row]. split.
    + intros x ->. reflexivity.
    + destruct (magnitude q); [reflexivity | reflexivity | discriminate].
Qed.

Lemma list_order_descending_witness :
  ge (coalesce (magnitude quake_b) 0) (coalesce (magnitude quake_c) 0) = true
  /\ (exists row : Row,
        nth_error (list_rows (filtered [quake_c; quake_b; quake_a] 0)) 0 = Some row
        /\ row_magnitude row = Number 5.2)
  /\ (exists row : Row,
        nth_error (list_rows (filtered [quake_c; quake_b; quake_a] 0)) 2 = Some row
        /\ row_magnitude row = Dash).
Proof.
  destruct (list_order_descending [quake_c; quake_b; quake_a] 0) as (H & _ & K).
  split; [apply (H 1%nat quake_b quake_c); vm_compute; reflexivity|].
  split.
  - destruct (K 0%nat quake_a) as (row & Hrow & _ & Hnum & _);
      [vm_compute; reflexivity|].
    exists row. split; [exact Hrow|]. apply Hnum. reflexivity.
  - destruct (K 2%nat quake_c) as (row & Hrow & _ & _ & Hnull);
      [vm_compute; reflexivity|].
    exists row. split; [exact Hrow|]. apply Hnull. reflexivity.
Defined.

(** The scenario of the specification: magnitudes 5.2, 1.0 and null. *)
Example scenario_three_features :
  filtered [quake_c; quake_b; quake_a] 0 = [quake_c; quake_b; quake_a]
  /\ list_order (filtered [quake_c; quake_b; quake_a] 0) = [quake_a; quake_b; quake_c]
  /\ List.map row_magnitude (list_rows (filtered [quake_c; quake_b; quake_a] 0))
     = [Number 5.2; Number 1; Dash]
  /\ filtered [quake_c; quake_b; quake_a] 2 = [quake_a].
Proof. vm_compute. repeat split. Qed.

(** ** Map framing *)

Lemma FitBounds_nonempty (f : BoundsFeature) (fs : list BoundsFeature)
    (map : LeafletMap) :
  FitBounds (Some (f :: fs)) map
  = map ++ [fitBounds (List.map lat_lon (f :: fs)) (50, 50)%float].
Proof.
  unfold FitBounds. cbn [List.length Nat.eqb].
  rewrite Array_filter_eq. unfold Array.map.
  assert (K : forall l : list LatLng, List.filter Boolean_of_array l = l).
  { induction l as [|x l IH]; cbn; [reflexivity | now rewrite IH]. }
  rewrite K. reflexivity.
Qed.

Lemma app_singleton_neq {A : Type} (l : list A) (x : A) : l ++ [x] <> l.
Proof.
  intros H. apply (f_equal (@List.length A)) in H.
  rewrite length_app in H. cbn in H. lia.
Qed.

(** C7: for an empty filtered set [FitBounds] invokes nothing on the map (no
    bounds-fit, the map is left as it was), and no render with an empty
    filtered set frames the map; a bounds-fit is requested only for a
    non-empty filtered set, and then once, with every shown point and the
    padding 50. *)
Theorem FitBounds_only_nonempty (quakes : list Quake) (t : float) (map : LeafletMap) :
  FitBounds None map = map
  /\ FitBounds (Some []) map = map
  /\ (filtered quakes t = [] ->
      FitBounds (Some (bounds_features (filtered quakes t))) map = map)
  /\ (FitBounds (Some (bounds_features (filtered quakes t))) map <> map ->
      filtered quakes t <> [])
  /\ (filtered quakes t <> [] ->
      FitBounds (Some (bounds_features (filtered quakes t))) map
      = map ++ [fitBounds (List.map (fun q => (latitude q, longitude q))
                                    (filtered quakes t))
                          (50, 50)%float])
  /\ (forall st : State,
        filtered (data st) (minMag st) = [] -> frame st map = map).
Proof.
  split; [reflexivity|]. split; [reflexivity|]. split; [|split; [|split]].
  - intros ->. reflexivity.
  - intros H E. apply H. rewrite E. reflexivity.
  - intros H. destruct (filtered quakes t) as [|q qs]; [congruence|].
    unfold bounds_features, Array.map. cbn [List.map].
    rewrite FitBounds_nonempty. cbn [List.map].
    rewrite map_map. reflexivity.
  - intros st E. unfold frame, main_pane. rewrite E. cbn [List.length Nat.eqb].
    destruct (error st); [destruct (truthy _)|]; destruct (loading st); reflexivity.
Qed.

Lemma FitBounds_only_nonempty_witness :
  FitBounds (Some (bounds_features (filtered [quake_b; quake_c] 2))) [] = []
  /\ FitBounds (Some (bounds_features (filtered [quake_a; quake_b] 2))) []
     = [fitBounds [(Num 20, Num 10)]%float (50, 50)%float].
Proof.
  destruct (FitBounds_only_nonempty [quake_b; quake_c] 2 []) as (_ & _ & H & _).
  destruct (FitBounds_only_nonempty [quake_a; quake_b] 2 []) as (_ & _ & _ & _ & K & _).
  split.
  - apply H. vm_compute; reflexivity.
  - rewrite K; [vm_compute; reflexivity|]. vm_compute. discriminate.
Defined.

(** ** Fetch orchestration *)

Lemma or_else_truthy (msg : option string) (fallback : string) :
  fallback <> ""%string -> or_else msg fallback <> ""%string.
Proof.
  intros Hf. unfold or_else. destruct msg as [s|]; [|exact Hf].
  cbn [truthy]. destruct (s =? "")%string eqn:E; cbn [negb]; [exact Hf|].
  now apply String.eqb_neq.
Qed.

Lemma truthy_Some (s : string) : s <> ""%string -> truthy (Some s) = true.
Proof. intros H. cbn [truthy]. apply String.eqb_neq in H. now rewrite H. Qed.

Lemma settle_failed (res : Settled Response) (st : State) :
  fetch_failed res = true ->
  exists err : Error, settle true res st = on_error true err st.
Proof.
  unfold settle. destruct res as [r|e]; cbn [fetch_failed then_].
  - intros H. unfold check_ok. rewrite H. eauto.
  - eauto.
Qed.

Lemma run_slides (vs : list float) (s : Session) :
  exists v : float,
    run s (List.map Slide vs)
    = {| ui := {| data := data (ui s); loading := loading (ui s);
                  error := error (ui s); minMag := v |};
         mounted := mounted s |}.
Proof.
  revert s. induction vs as [|v vs IH]; intros s.
  - exists (minMag (ui s)). destruct s as [[d l e m] b]. reflexivity.
  - cbn [List.map run fold_left]. change (fold_left step ?l ?x) with (run x l).
    destruct (IH (step s (Slide v))) as [w ->]. exists w. reflexivity.
Qed.

(** C8: when the fetch rejects or answers with a non-success status (the
    slider may have been moved meanwhile), the session ends up Failed: a
    non-empty error message is stored, loading has ended, the data is still the
    initial empty array, and the filtered view is empty at every threshold. *)
Theorem fetch_failure_state (res : Settled Response) (slides : list float) :
  fetch_failed res = true ->
  let st := ui (step (run mount (List.map Slide slides)) (Settle res)) in
  (exists msg : string, error st = Some msg /\ msg <> ""%string)
  /\ loading st = false
  /\ data st = []
  /\ phase st = Failed
  /\ (forall t : float, filtered (data st) t = [])
  /\ (exists msg : string, main_pane st = ErrorPane msg).
Proof.
  intros H. cbv zeta. destruct (run_slides slides mount) as [v ->].
  cbn [step mount ui mounted].
  match goal with |- context [settle true res ?st0] =>
    destruct (settle_failed res st0 H) as [err ->] end.
  cbn [on_error negb setLoading setError data loading error initial_state].
  pose proof (or_else_truthy (message err) "Failed to load" ltac:(discriminate)) as T.
  split; [eauto|]. split; [reflexivity|]. split; [reflexivity|].
  split; [|split].
  - unfold phase. cbn [error setLoading setError]. now rewrite (truthy_Some _ T).
  - intros t. reflexivity.
  - unfold main_pane. cbn [error setLoading setError].
    rewrite (truthy_Some _ T). eauto.
Qed.

Lemma fetch_failure_state_witness :
  phase (ui (step (run mount (List.map Slide [2.5%float]))
                  (Settle (Fulfilled {| ok := false;
                     body := Parsed {| Raw.features := Some [sample_feature] |} |}))))
  = Failed.
Proof.
  apply (fetch_failure_state
           (Fulfilled {| ok := false;
                         body := Parsed {| Raw.features := Some [sample_feature] |} |})
           [2.5%float]).
  reflexivity.
Defined.

Example fetch_rejects :
  ui (step mount (Settle (Rejected {| message := Some "Failed to fetch"%string |})))
  = {| data := []; loading := false; error := Some "Failed to fetch"%string;
       minMag := 0%float |}.
Proof. reflexivity. Qed.

Example fetch_not_ok :
  error (ui (step mount (Settle (Fulfilled {| ok := false;
                                               body := Malformed {| message := None |} |}))))
  = Some "Network response was not ok"%string.
Proof. reflexivity. Qed.

Example fetch_succeeds :
  let st := ui (step mount (Settle (Fulfilled {| ok := true;
                   body := Parsed {| Raw.features := Some [sample_feature] |} |}))) in
  phase st = Loaded /\ List.length (data st) = 1%nat /\ error st = None.
Proof. vm_compute. repeat split. Qed.

(** The scenario of the specification: an empty feature array. *)
Example scenario_empty_feed :
  let st := ui (step mount (Settle (Fulfilled {| ok := true;
                   body := Parsed {| Raw.features := Some [] |} |}))) in
  loading st = false /\ main_pane st = NoMatchPane /\ frame st [] = [].
Proof. vm_compute. repeat split. Qed.

Lemma settle_unmounted (res : Settled Response) (st : State) :
  settle false res st = st.
Proof. unfold settle. destruct (then_ res check_ok); reflexivity. Qed.

Lemma run_unmounted (results : list (Settled Response)) (s : Session) :
  mounted s = false -> ui (run s (List.map Settle results)) = ui s.
Proof.
  revert s. induction results as [|res results IH]; intros s Hs; [reflexivity|].
  cbn [List.map run fold_left]. change (fold_left step ?l ?x) with (run x l).
  rewrite IH; cbn [step mounted ui]; rewrite Hs; [apply settle_unmounted | reflexivity].
Qed.

(** C9: once the view has been torn down, the settling of the pending fetch,
    whatever its outcome, changes nothing of the retained state: data, error
    and loading (the whole state record) are as they were at teardown. *)
Theorem teardown_discards_resolution (s : Session) (res : Settled Response) :
  ui (step (step s Unmount) (Settle res)) = ui s
  /\ data (ui (step (step mount Unmount) (Settle res))) = []
  /\ error (ui (step (step mount Unmount) (Settle res))) = None
  /\ loading (ui (step (step mount Unmount) (Settle res))) = true
  /\ (forall results : list (Settled Response),
        ui (run (step s Unmount) (List.map Settle results)) = ui s).
Proof.
  assert (E : forall s0, ui (step (step s0 Unmount) (Settle res)) = ui s0).
  { intros s0. cbn [step ui mounted]. apply settle_unmounted. }
  split; [apply E|]. rewrite (E mount).
  split; [reflexivity|]. split; [reflexivity|]. split; [reflexivity|].
  intros results. now rewrite run_unmounted.
Qed.

Example teardown_then_success :
  ui (run mount [Unmount;
                 Settle (Fulfilled {| ok := true;
                   body := Parsed {| Raw.features := Some [sample_feature] |} |})])
  = ui mount.
Proof. reflexivity. Qed.

(** * Further properties of the component *)

(** ** The comparator of the list view *)

Lemma SFsub_finite_sign_neg sx mx ex sy my ey :
  valid_binary (S754_finite sx mx ex) = true ->
  valid_binary (S754_finite sy my ey) = true ->
  SFltb (SF64sub (S754_finite sy my ey) (S754_finite sx mx ex)) (S754_zero false)
  = (SFval (S754_finite sy my ey) <? SFval (S754_finite sx mx ex))%Z.
Proof.
  intros Vx Vy.
  pose proof (valid_finite _ _ _ Vx) as (Ex & _ & _).
  pose proof (valid_finite _ _ _ Vy) as (Ey & _ & _).
  unfold SF64sub. cbn [SFsub SFval].
  set (ez := Z.min ey ex).
  pose proof (shl_align_val my ey ez ltac:(lia)) as Ay.
  pose proof (shl_align_val mx ex ez ltac:(lia)) as Ax.
  set (ay := Z.pos (fst (shl_align my ey ez))) in *.
  set (ax := Z.pos (fst (shl_align mx ex ez))) in *.
  assert (P : (0 < 2 ^ (ez + 1074))%Z) by (apply Z.pow_pos_nonneg; lia).
  assert (D : ((cond_Zopp sy ay - cond_Zopp sx ax) * 2 ^ (ez + 1074)
               = cond_Zopp sy (Z.pos my * 2 ^ (ey + 1074))
                 - cond_Zopp sx (Z.pos mx * 2 ^ (ex + 1074)))%Z).
  { rewrite <- Ay, <- Ax. destruct sx, sy; cbn [cond_Zopp]; ring. }
  set (vy := cond_Zopp sy (Z.pos my * 2 ^ (ey + 1074))) in *.
  set (vx := cond_Zopp sx (Z.pos mx * 2 ^ (ex + 1074))) in *.
  destruct (cond_Zopp sy ay - cond_Zopp sx ax)%Z as [|d|d] eqn:Ed; cbn [binary_normalize].
  - cbn. symmetry. apply Z.ltb_ge. lia.
  - destruct (binary_round_sign false d ez ltac:(lia)) as [(m' & e' & ->) | ->];
      cbn; symmetry; apply Z.ltb_ge; nia.
  - destruct (binary_round_sign true d ez ltac:(lia)) as [(m' & e' & ->) | ->];
      cbn; symmetry; apply Z.ltb_lt; nia.
Qed.

Lemma SFsub_sign_neg x y :
  valid_binary x = true -> valid_binary y = true ->
  SFltb (SF64sub y x) (S754_zero false) = SFltb y x.
Proof.
  intros Vx Vy.
  destruct x as [sx|sx| |sx mx ex], y as [sy|sy| |sy my ey].
  all: try (rewrite (SFsub_finite_sign_neg _ _ _ _ _ _ Vx Vy), (SFltb_val _ _ Vy Vx);
            reflexivity).
  all: try destruct sx; try destruct sy; reflexivity.
Qed.

Lemma sub_sign_neg x y : (y - x <? 0)%float = (y <? x)%float.
Proof.
  rewrite !FloatAxioms.ltb_spec, FloatAxioms.sub_spec.
  change (Prim2SF 0) with (S754_zero false).
  apply SFsub_sign_neg; apply Prim2SF_valid.
Qed.

(** X1: the comparator of the list view never loses or flips an order to
    rounding: its result is positive exactly when [b] has the strictly larger
    key [magnitude ?? 0], negative exactly when [a] has, for all numbers
    (infinities and NaN included). *)
Theorem comparator_sign (a b : Quake) :
  (0 <? by_magnitude_desc a b)%float = (sort_key a <? sort_key b)%float
  /\ (by_magnitude_desc a b <? 0)%float = (sort_key b <? sort_key a)%float.
Proof.
  unfold by_magnitude_desc, sort_key. split; [apply sub_sign | apply sub_sign_neg].
Qed.

(** ** Order of the rows *)

Lemma insert_filter (P : Quake -> bool) (x : Quake) (l : list Quake) :
  (forall y, (Array.SortCompare by_magnitude_desc x y <=? 0)%float = false ->
             P x = true -> P y = false) ->
  List.filter P (Array.insert by_magnitude_desc x l) = List.filter P (x :: l).
Proof.
  intros HP. induction l as [|y l IH]; cbn [Array.insert]; [reflexivity|].
  destruct (Array.SortCompare by_magnitude_desc x y <=? 0)%float eqn:T;
    [reflexivity|].
  cbn [List.filter] in *. rewrite IH.
  destruct (P x) eqn:Px; [|reflexivity].
  now rewrite (HP y T eq_refl).
Qed.

(** X2: the list view is stable: the records that share a key
    [magnitude ?? 0] (a null magnitude sharing the key 0) appear in the rows in
    the order they have in the filtered set. *)
Theorem list_order_stable (shown : list Quake) (k : float) :
  List.filter (fun q => (sort_key q =? k)%float) (list_order shown)
  = List.filter (fun q => (sort_key q =? k)%float) shown.
Proof.
  unfold list_order, Array.slice, Array.sort.
  induction shown as [|x l IH]; [reflexivity|].
  cbn [fold_right]. rewrite insert_filter.
  - cbn [List.filter]. now rewrite IH.
  - intros y T Px. rewrite SortCompare_by_magnitude in T.
    apply negb_false_iff, ltb_true in T. fold (sort_key x) (sort_key y) in T.
    apply eqb_true in Px.
    destruct (sort_key y =? k)%float eqn:Py; [|reflexivity].
    apply eqb_true in Py. lia.
Qed.

Lemma descending_transitive (a b c : Quake) :
  descending a b -> descending b c -> descending a c.
Proof. unfold descending. apply ge_trans. Qed.

Lemma StronglySorted_nth {A : Type} (R : A -> A -> Prop) (l : list A) :
  StronglySorted R l ->
  forall (i j : nat) (a b : A),
    (i < j)%nat -> nth_error l i = Some a -> nth_error l j = Some b -> R a b.
Proof.
  induction 1 as [|x l Sl IH Hx]; intros i j a b Hij Ha Hb.
  - destruct i; discriminate.
  - destruct j as [|j]; [lia|]. cbn in Hb. destruct i as [|i].
    + cbn in Ha. inversion Ha; subst.
      apply (proj1 (Forall_forall _ _) Hx). eapply nth_error_In; eauto.
    + cbn in Ha. apply (IH i j a b); [lia | assumption | assumption].
Qed.

(** X3: in the list view of a filtered set every row is at least as large as
    every later row, not only the next one; in particular the first row holds
    a largest magnitude of the shown records. *)
Theorem list_order_globally_descending (quakes : list Quake) (t : float) :
  (forall (i j : nat) (a b : Quake),
     (i < j)%nat ->
     nth_error (list_order (filtered quakes t)) i = Some a ->
     nth_error (list_order (filtered quakes t)) j = Some b ->
     ge (sort_key a) (sort_key b) = true)
  /\ (forall top q : Quake,
        nth_error (list_order (filtered quakes t)) 0 = Some top ->
        In q (filtered quakes t) ->
        ge (sort_key top) (sort_key q) = true).
Proof.
  assert (HS : StronglySorted descending (list_order (filtered quakes t))).
  { apply Sorted_StronglySorted; [|apply list_order_Sorted].
    intros a b c. apply descending_transitive. }
  assert (HP : Permutation (list_order (filtered quakes t)) (filtered quakes t))
    by apply sort_Permutation.
  set (out := list_order (filtered quakes t)) in *.
  split.
  - intros i j a b Hij Ha Hb. exact (StronglySorted_nth _ _ HS i j a b Hij Ha Hb).
  - intros top q Htop Hq.
    pose proof (filtered_numbers quakes t) as F.
    pose proof (proj1 (Forall_forall _ _) F q Hq) as Nq. unfold comparable in Nq.
    apply (Permutation_in q (Permutation_sym HP)) in Hq.
    apply In_nth_error in Hq. destruct Hq as [[|j] Hj].
    + rewrite Htop in Hj. inversion Hj; subst.
      apply ge_true. repeat split; auto. lia.
    + exact (StronglySorted_nth _ _ HS 0%nat (S j) top q ltac:(lia) Htop Hj).
Qed.

Lemma list_order_globally_descending_witness :
  ge (sort_key quake_a) (sort_key quake_c) = true.
Proof.
  destruct (list_order_globally_descending [quake_c; quake_b; quake_a] 0) as [H _].
  apply (H 0%nat 2%nat quake_a quake_c); [lia | vm_compute; reflexivity ..].
Defined.

(** ** The map and the list show the same records *)

Lemma filter_length_le {A : Type} (p : A -> bool) (l : list A) :
  (List.length (List.filter p l) <= List.length l)%nat.
Proof.
  induction l as [|x l IH]; cbn [List.filter List.length]; [lia|].
  destruct (p x); cbn [List.length]; lia.
Qed.

(** X4: the sidebar's "Showing" never exceeds its "Total"; the list has one
    row and the map one marker per shown record, and the keys of the rows are
    the keys of the markers, up to the order of the list. *)
Theorem list_and_map_agree (approx : float -> float -> float) (st : State) :
  (showing (sidebar st) <= total (sidebar st))%nat
  /\ List.length (rows (sidebar st)) = showing (sidebar st)
  /\ List.length (markers approx (filtered (data st) (minMag st)))
     = showing (sidebar st)
  /\ Permutation (List.map row_key (rows (sidebar st)))
                 (List.map marker_key
                           (markers approx (filtered (data st) (minMag st)))).
Proof.
  unfold sidebar. cbn [showing total rows].
  set (shown := filtered (data st) (minMag st)).
  split; [|split; [|split]].
  - unfold shown. rewrite filtered_eq. apply filter_length_le.
  - unfold list_rows, Array.map. rewrite length_map.
    apply Permutation_length, sort_Permutation.
  - unfold markers, Array.map. apply length_map.
  - unfold list_rows, markers, Array.map. rewrite !map_map. cbn [row_key list_row marker_key circle_marker].
    apply Permutation_map, sort_Permutation.
Qed.

(** ** Thresholds at the edge *)

(** X5: with a threshold of the slider's range ([t >= 0]) a record is shown
    only if its key [magnitude ?? 0] is a number that is at least 0, so a
    record with a negative magnitude is never shown, not even at the initial
    threshold 0; with a NaN threshold no record is shown. *)
Theorem filtered_threshold_edges (quakes : list Quake) (t : float) :
  ((0 <=? t)%float = true ->
   forall q : Quake,
     In q (filtered quakes t) ->
     ge (sort_key q) 0 = true
     /\ (forall m : float, magnitude q = Num m -> (m <? 0)%float = false))
  /\ (is_nan t = true -> filtered quakes t = []).
Proof.
  split.
  - intros Ht q Hq. rewrite filtered_eq in Hq. apply filter_In in Hq.
    destruct Hq as [_ Hp]. unfold passes in Hp. fold (sort_key q) in Hp.
    assert (G : ge (sort_key q) 0 = true) by (eapply ge_trans; eauto).
    split; [exact G|]. intros m Hm. unfold sort_key in G. rewrite Hm in G.
    cbn [coalesce] in G. apply ge_true in G. destruct G as (Nm & _ & G).
    apply ltb_false; auto.
  - intros Nt. rewrite filtered_eq.
    induction quakes as [|q l IH]; cbn [List.filter]; [reflexivity|].
    unfold passes at 1. now rewrite (ge_nan_r _ t Nt).
Qed.

Lemma filtered_threshold_edges_witness :
  ge (sort_key quake_b) 0 = true /\ filtered [quake_a; quake_b] nan = [].
Proof.
  destruct (filtered_threshold_edges [quake_a; quake_b] 0.5) as [H _].
  destruct (filtered_threshold_edges [quake_a; quake_b] nan) as [_ K].
  split.
  - apply (H eq_refl quake_b). vm_compute. right. left. reflexivity.
  - apply K. reflexivity.
Defined.

(** ** The map pane *)

Lemma main_pane_map (st : State) (shown : list Quake) :
  main_pane st = MapPane shown ->
  shown = filtered (data st) (minMag st) /\ shown <> []
  /\ loading st = false /\ truthy (error st) = false.
Proof.
  unfold main_pane.
  destruct (error st) as [msg|] eqn:E; [destruct (truthy (Some msg)) eqn:T|];
    try discriminate;
    destruct (loading st); try discriminate;
    (destruct (filtered (data st) (minMag st)) as [|q l] eqn:F;
     cbn [List.length Nat.eqb]; try discriminate);
    intros H; inversion H; subst; repeat split; auto; discriminate.
Qed.

(** X6: when the map pane is rendered it holds at least one record, the
    state is neither loading nor failed, and its [FitBounds] requests exactly
    one bounds-fit, over exactly the centres of the markers drawn, in marker
    order. *)
Theorem map_pane_fits_its_markers (approx : float -> float -> float)
    (st : State) (shown : list Quake) (map : LeafletMap) :
  main_pane st = MapPane shown ->
  shown <> []
  /\ phase st = Loaded
  /\ frame st map
     = map ++ [fitBounds (List.map center (markers approx shown)) (50, 50)%float].
Proof.
  intros H. pose proof (main_pane_map st shown H) as (E & Hne & Hl & He).
  split; [exact Hne|]. split.
  - unfold phase. now rewrite He, Hl.
  - unfold frame. rewrite H. destruct shown as [|q l]; [congruence|].
    unfold bounds_features, markers, Array.map. cbn [List.map].
    rewrite FitBounds_nonempty. cbn [List.map]. rewrite !map_map. reflexivity.
Qed.

Lemma map_pane_fits_its_markers_witness :
  frame {| data := [quake_a; quake_b]; loading := false; error := None;
           minMag := 2 |} []
  = [fitBounds [(Num 20, Num 10)]%float (50, 50)%float].
Proof.
  destruct (map_pane_fits_its_markers sample_pow
              {| data := [quake_a; quake_b]; loading := false; error := None;
                 minMag := 2 |} [quake_a] []) as (_ & _ & K);
    [vm_compute; reflexivity|].
  etransitivity; [exact K | vm_compute; reflexivity].
Defined.

(** ** Keys *)

Lemma NoDup_map_filter {A B : Type} (f : A -> B) (p : A -> bool) (l : list A) :
  NoDup (List.map f l) -> NoDup (List.map f (List.filter p l)).
Proof.
  induction l as [|x l IH]; cbn [List.map List.filter]; [auto|].
  intros H. inversion H as [|? ? Hx Hl]; subst.
  destruct (p x); cbn [List.map]; [|auto].
  constructor; [|auto]. intros Hin. apply Hx.
  apply in_map_iff in Hin. destruct Hin as (y & Hy & Hin).
  apply filter_In in Hin. apply in_map_iff. exists y. tauto.
Qed.

(** X7: when the ids of the feed are pairwise distinct, so are the React keys
    of the markers and of the rows, at every threshold. *)
Theorem keys_unique (approx : float -> float -> float) (quakes : list Quake)
    (t : float) :
  NoDup (List.map id quakes) ->
  NoDup (List.map marker_key (markers approx (filtered quakes t)))
  /\ NoDup (List.map row_key (list_rows (filtered quakes t))).
Proof.
  intros H.
  assert (K : NoDup (List.map id (filtered quakes t)))
    by (rewrite filtered_eq; now apply NoDup_map_filter).
  split.
  - unfold markers, Array.map. rewrite map_map. exact K.
  - unfold list_rows, Array.map. rewrite map_map. cbn [row_key list_row].
    eapply Permutation_NoDup; [|exact K].
    apply Permutation_map, Permutation_sym, sort_Permutation.
Qed.

Lemma keys_unique_witness :
  NoDup (List.map row_key (list_rows (filtered [quake_c; quake_b; quake_a] 0))).
Proof.
  apply (keys_unique sample_pow [quake_c; quake_b; quake_a] 0).
  vm_compute. repeat constructor; cbn; intuition discriminate.
Defined.

(** ** Popups *)

(** X8: the popup of a normalized feature prints a dash for the depth when
    the feed's coordinate tuple has at most two elements, and the third
    element, in km, when that is a number; it prints the feed's [mag] when
    that is a number and a dash exactly when it is null or missing; the marker
    sits at [coordinates[1]], [coordinates[0]]. *)
Theorem popup_of_feature (approx : float -> float -> float) (f : Raw.Feature) :
  let m := circle_marker approx (normalize_feature f) in
  ((List.length (Raw.coordinates (Raw.geometry f)) <= 2)%nat ->
   popup_depth (popup m) = NoDepth)
  /\ (forall d : float,
        nth_error (Raw.coordinates (Raw.geometry f)) 2 = Some d ->
        popup_depth (popup m) = Km d)
  /\ (forall x : float,
        Raw.mag (Raw.properties f) = Num x ->
        popup_magnitude (popup m) = Number x)
  /\ (popup_magnitude (popup m) = Dash
      <-> loosely_null (Raw.mag (Raw.properties f)) = true)
  /\ center m = (Array.get (Raw.coordinates (Raw.geometry f)) 1,
                 Array.get (Raw.coordinates (Raw.geometry f)) 0).
Proof.
  cbv zeta. cbn [circle_marker popup popup_depth popup_magnitude center
                 normalize_feature depth magnitude].
  split; [|split; [|split; [|split]]].
  - intros H. apply Array_get_undefined in H. now rewrite H.
  - intros d Hd. unfold Array.get. now rewrite Hd.
  - intros x ->. reflexivity.
  - destruct (Raw.mag (Raw.properties f)); cbn; split; discriminate || reflexivity.
  - reflexivity.
Qed.

Lemma popup_of_feature_witness :
  popup_depth (popup (circle_marker sample_pow (normalize_feature sample_feature)))
  = NoDepth
  /\ popup_magnitude (popup (circle_marker sample_pow (normalize_feature sample_feature)))
     = Number 4.5.
Proof.
  destruct (popup_of_feature sample_pow sample_feature) as (H & _ & K & _).
  split; [apply H; vm_compute; lia | apply K; reflexivity].
Defined.

(** ** The colour scale *)

Lemma shade_of_magnitude (m : float) :
  is_nan m = false ->
  (shade (magToColor (Num m)) = 5%nat /\ (fval 5 <= fval m)%Z)
  \/ (shade (magToColor (Num m)) = 4%nat /\ (fval 4 <= fval m < fval 5)%Z)
  \/ (shade (magToColor (Num m)) = 3%nat /\ (fval 3 <= fval m < fval 4)%Z)
  \/ (shade (magToColor (Num m)) = 2%nat /\ (fval 2 <= fval m < fval 3)%Z)
  \/ (shade (magToColor (Num m)) = 1%nat /\ (fval 1 <= fval m < fval 2)%Z)
  \/ (shade (magToColor (Num m)) = 0%nat /\ (fval m < fval 1)%Z).
Proof.
  intros Nm. destruct colour_bounds_increasing as [(B12 & B23) (B34 & B45)].
  cbn [magToColor].
  destruct (ge_cases m 5 Nm eq_refl) as [(-> & _ & G5) | (-> & _ & G5)];
    [left; split; [reflexivity | lia] | right].
  destruct (ge_cases m 4 Nm eq_refl) as [(-> & _ & G4) | (-> & _ & G4)];
    [left; split; [reflexivity | lia] | right].
  destruct (ge_cases m 3 Nm eq_refl) as [(-> & _ & G3) | (-> & _ & G3)];
    [left; split; [reflexivity | lia] | right].
  destruct (ge_cases m 2 Nm eq_refl) as [(-> & _ & G2) | (-> & _ & G2)];
    [left; split; [reflexivity | lia] | right].
  destruct (ge_cases m 1 Nm eq_refl) as [(-> & _ & G1) | (-> & _ & G1)];
    [left; split; [reflexivity | lia] | right].
  split; [reflexivity | lia].
Qed.

(** X9: the colour never moves down the scale when the magnitude grows: for
    numbers [m1 <= m2] the token of [m2] is the token of [m1] or one of a later
    step of the scale. *)
Theorem magToColor_monotone (m1 m2 : float) :
  (m1 <=? m2)%float = true ->
  (shade (magToColor (Num m1)) <= shade (magToColor (Num m2)))%nat.
Proof.
  intros H. apply leb_true in H. destruct H as (N1 & N2 & H).
  destruct colour_bounds_increasing as [(B12 & B23) (B34 & B45)].
  destruct (shade_of_magnitude m1 N1) as [[-> ?]|[[-> ?]|[[-> ?]|[[-> ?]|[[-> ?]|[-> ?]]]]]];
  destruct (shade_of_magnitude m2 N2) as [[-> ?]|[[-> ?]|[[-> ?]|[[-> ?]|[[-> ?]|[-> ?]]]]]];
  lia.
Qed.

Lemma magToColor_monotone_witness :
  (shade (magToColor (Num 1.5)) <= shade (magToColor (Num 4.5)))%nat.
Proof. apply (magToColor_monotone 1.5 4.5). vm_compute; reflexivity. Defined.

(** ** The phases of a session *)

Lemma step_keeps (s : Session) (e : Event) :
  is_settle e = false ->
  data (ui (step s e)) = data (ui s)
  /\ loading (ui (step s e)) = loading (ui s)
  /\ error (ui (step s e)) = error (ui s).
Proof. destruct e; [auto | discriminate | auto]. Qed.

Lemma run_keeps (events : list Event) (s : Session) :
  settlements events = 0%nat ->
  data (ui (run s events)) = data (ui s)
  /\ loading (ui (run s events)) = loading (ui s)
  /\ error (ui (run s events)) = error (ui s).
Proof.
  revert s. induction events as [|e events IH]; intros s H; [auto|].
  cbn [run fold_left]. change (fold_left step ?l ?x) with (run x l).
  unfold settlements in H. cbn [List.filter] in H.
  destruct (is_settle e) eqn:E; [discriminate|].
  destruct (IH (step s e) H) as (-> & -> & ->). now apply step_keeps.
Qed.

Lemma settle_shapes (b : bool) (res : Settled Response) (st : State) :
  loading st = true -> data st = [] -> error st = None ->
  let st' := settle b res st in
  (loading st' = true /\ data st' = [] /\ error st' = None)
  \/ (loading st' = false /\ error st' = None
      /\ exists json, data st' = normalize json)
  \/ (loading st' = false /\ data st' = []
      /\ exists msg, error st' = Some msg /\ msg <> ""%string).
Proof.
  intros Hl Hd He. cbv zeta. unfold settle.
  destruct (then_ res check_ok) as [json|err]; unfold on_json, on_error;
    destruct b; cbn [negb]; auto.
  - right. left. cbn. rewrite He. eauto.
  - right. right. cbn. rewrite Hd. repeat split; auto.
    eexists. split; [reflexivity|]. apply or_else_truthy. discriminate.
Qed.

Lemma phase_of_shape (st : State) :
  (loading st = true /\ data st = [] /\ error st = None -> phase st = Loading)
  /\ (loading st = false /\ error st = None -> phase st = Loaded)
  /\ (forall msg, loading st = false /\ error st = Some msg /\ msg <> ""%string ->
                  phase st = Failed).
Proof.
  unfold phase. repeat split.
  - intros (-> & _ & ->). reflexivity.
  - intros (-> & ->). reflexivity.
  - intros msg (_ & -> & T). now rewrite (truthy_Some _ T).
Qed.

Lemma settlements_app (pre post : list Event) :
  settlements (pre ++ post) = (settlements pre + settlements post)%nat.
Proof. unfold settlements. now rewrite filter_app, length_app. Qed.

Lemma run_app (s : Session) (pre post : list Event) :
  run s (pre ++ post) = run (run s pre) post.
Proof. unfold run. apply fold_left_app. Qed.



(** ** From the feed to the shown records *)

Lemma filter_map_commute {A B : Type} (f : A -> B) (p : B -> bool) (l : list A) :
  List.filter p (List.map f l) = List.map f (List.filter (fun x => p (f x)) l).
Proof.
  induction l as [|x l IH]; cbn [List.map List.filter]; [reflexivity|].
  destruct (p (f x)); cbn [List.map]; now rewrite IH.
Qed.

(** X11: for a feed as [Raw.FeatureCollection] describes it (the body parses to
    an object whose [features], when present, each carry [properties] and a
    [geometry] with a coordinate array, so that the handler's callback does not
    throw): when the fetch answers with a success status (the slider may have
    been moved meanwhile), the session is Loaded: loading has ended, no error
    is stored, "Total" is the number of features of the feed, and at every
    threshold the shown records are the normalized forms, in feed order, of
    exactly the features whose [mag ?? 0] passes it. *)
Theorem fetch_success_state (json : Raw.FeatureCollection) (slides : list float) :
  let st := ui (step (run mount (List.map Slide slides))
                     (Settle (Fulfilled {| ok := true; body := Parsed json |}))) in
  data st = normalize json
  /\ loading st = false
  /\ error st = None
  /\ phase st = Loaded
  /\ total (sidebar st) = List.length (features_or_empty json)
  /\ (forall t : float,
        filtered (data st) t
        = List.map normalize_feature
                   (List.filter (raw_passes t) (features_or_empty json))).
Proof.
  cbv zeta. destruct (run_slides slides mount) as [v ->].
  cbn [step mount ui mounted settle then_ check_ok ok body negb on_json].
  cbn [setLoading setData initial_state data loading error minMag].
  split; [reflexivity|]. split; [reflexivity|]. split; [reflexivity|].
  split; [reflexivity|]. split.
  - unfold sidebar. cbn [total data]. unfold normalize, Array.map. apply length_map.
  - intros t. rewrite filtered_eq. unfold normalize, Array.map.
    exact (filter_map_commute normalize_feature (passes t) (features_or_empty json)).
Qed.

(** ** Which message a failure stores *)

(** X12: the stored error message depends on the way the fetch fails: a
    rejection and an unparsable body store the reason's own message when it is
    a non-empty string and "Failed to load" otherwise; a non-success status
    stores "Network response was not ok" whatever the body holds. *)
Theorem failure_messages (slides : list float) (reason : Error) (b : Body) :
  let before := run mount (List.map Slide slides) in
  error (ui (step before (Settle (Rejected reason))))
    = Some (or_else (message reason) "Failed to load")
  /\ error (ui (step before (Settle (Fulfilled {| ok := true; body := Malformed reason |}))))
     = Some (or_else (message reason) "Failed to load")
  /\ data (ui (step before (Settle (Fulfilled {| ok := true; body := Malformed reason |}))))
     = []
  /\ error (ui (step before (Settle (Fulfilled {| ok := false; body := b |}))))
     = Some "Network response was not ok"%string
  /\ (forall msg : string,
        message reason = Some msg -> msg <> ""%string ->
        or_else (message reason) "Failed to load" = msg)
  /\ (message reason = None \/ message reason = Some ""%string ->
      or_else (message reason) "Failed to load" = "Failed to load"%string).
Proof.
  cbv zeta. destruct (run_slides slides mount) as [v ->].
  cbn [step mount ui mounted settle then_ check_ok ok body negb on_error].
  repeat split.
  - intros msg -> T. cbn [or_else]. now rewrite (truthy_Some _ T).
  - intros [-> | ->]; reflexivity.
Qed.

Lemma failure_messages_witness :
  or_else (message {| message := Some "Failed to fetch"%string |}) "Failed to load"
  = "Failed to fetch"%string.
Proof.
  destruct (failure_messages [] {| message := Some "Failed to fetch"%string |}
                             (Malformed {| message := None |}))
    as (_ & _ & _ & _ & H & _).
  apply (H "Failed to fetch"%string); [reflexivity | discriminate].
Defined.

(** ** The slider and the fetch *)

(** X13: moving the slider and the settling of the fetch commute: the session
    is the same whichever comes first, so a response never resets the
    threshold and a threshold change never touches data, error or loading. *)
Theorem slide_settle_commute (s : Session) (v : float) (res : Settled Response) :
  step (step s (Slide v)) (Settle res) = step (step s (Settle res)) (Slide v)
  /\ minMag (ui (step (step s (Slide v)) (Settle res))) = v
  /\ data (ui (step s (Slide v))) = data (ui s).
Proof.
  destruct s as [[d l e m] b]. cbn [step ui mounted]. unfold settle.
  destruct (then_ res check_ok) as [json|err]; unfold on_json, on_error;
    destruct b; cbn [negb]; repeat split.
Qed.

(** ** An empty feed *)

(** X14: a feed whose [features] is missing or empty loads like any other
    (Loaded, no error), shows "Total" 0, and at every slider position renders
    the no-match pane, without markers and without a bounds-fit. *)
Theorem empty_feed (approx : float -> float -> float)
    (json : Raw.FeatureCollection) (slides later : list float) (map : LeafletMap) :
  features_or_empty json = [] ->
  let st := ui (run (step (run mount (List.map Slide slides))
                          (Settle (Fulfilled {| ok := true; body := Parsed json |})))
                    (List.map Slide later)) in
  phase st = Loaded
  /\ total (sidebar st) = 0%nat
  /\ main_pane st = NoMatchPane
  /\ markers approx (filtered (data st) (minMag st)) = []
  /\ frame st map = map.
Proof.
  intros E. cbv zeta.
  destruct (run_slides later
              (step (run mount (List.map Slide slides))
                    (Settle (Fulfilled {| ok := true; body := Parsed json |}))))
    as [w ->].
  destruct (run_slides slides mount) as [v ->].
  cbn [step mount ui mounted settle then_ check_ok ok body negb on_json].
  cbn [setLoading setData initial_state data loading error minMag].
  unfold normalize. rewrite E.
  repeat split.
Qed.

Lemma empty_feed_witness :
  main_pane (ui (run (step (run mount (List.map Slide [1.5%float]))
                           (Settle (Fulfilled {| ok := true;
                              body := Parsed {| Raw.features := None |} |})))
                     (List.map Slide [0.3%float])))
  = NoMatchPane.
Proof.
  apply (empty_feed sample_pow {| Raw.features := None |} [1.5%float] [0.3%float] []).
  reflexivity.
Defined.
